(** * EPCGenericRTDyldMemoryManager: a shallow embedding

    Model of llvm/lib/ExecutionEngine/Orc/EPCGenericRTDyldMemoryManager.cpp.

    - 64-bit and 32-bit unsigned integers are [Z] with the wrap-around written
      out ([wrap64]).
    - The manager object is the record [Manager]; every member function takes
      the manager and returns the updated one.  The mutex is not modelled:
      the functions are the sequential behaviour of one call.
    - The executor is reached through [callSPSWrapper] only.  Every call is
      appended to a log of remote calls, and the outcome of the n-th call is
      read from a response tape [respond : nat -> CallOutcome], so theorems
      quantified over the tape hold for every executor and every channel. *)

From Stdlib Require Import ZArith List String Bool Lia Sorted.
Import ListNotations.
Local Open Scope Z_scope.

(* ------------------------------------------------------------------ *)
(** ** Machine arithmetic *)

Definition wrap64 (x : Z) : Z := x mod 2 ^ 64.

(** Modelled from the spec: llvm::alignTo (MathExtras.h) is not among the
    sources; the spec describes it as rounding a value up to an alignment.
    This is the uint64_t computation (Value + Align - 1) / Align * Align.
    Align = 0 trips an assertion in the original; the value of the model
    there is not meaningful. *)
Definition alignTo (Value Align : Z) : Z :=
  wrap64 (wrap64 (Value + Align - 1) / Align * Align).

(** Modelled from the spec: llvm::alignAddr (Alignment.h) is not among the
    sources; it rounds a local pointer up to an alignment. *)
Definition alignAddr (Addr Alignment : Z) : Z := alignTo Addr Alignment.

(** Modelled from the spec: llvm::isPowerOf2_32 (MathExtras.h),
    Value && !(Value & (Value - 1)). *)
Definition isPowerOf2_32 (Value : Z) : bool :=
  negb (Value =? 0) && (Z.land Value (Value - 1) =? 0).

(** Rounding up in unbounded arithmetic, used to state layout results. *)
Definition roundUp (v a : Z) : Z := (v + a - 1) / a * a.

(* ------------------------------------------------------------------ *)
(** ** Data model *)

Definition ExecutorAddr := Z.

(** Modelled from the spec: ExecutorAddrRange (ExecutorAddress.h) is declared
    outside the sources; the code uses its fields Start and End, builds it
    from a start and a size, and calls contains. *)
Record ExecutorAddrRange := mkExecutorAddrRange {
  Start : ExecutorAddr;
  End : ExecutorAddr
}.

Definition rangeOfSize (start : ExecutorAddr) (size : Z) : ExecutorAddrRange :=
  {| Start := start; End := wrap64 (start + size) |}.

Definition emptyRange : ExecutorAddrRange := {| Start := 0; End := 0 |}.

Definition contains (R : ExecutorAddrRange) (Addr : ExecutorAddr) : bool :=
  (Start R <=? Addr) && (Addr <? End R).

Definition rangeSize (R : ExecutorAddrRange) : Z := wrap64 (End R - Start R).

(** Modelled from the spec: the structs Alloc, EHFrame and AllocGroup, the
    symbol table and the members of the manager are declared in the header
    of the class, which is not among the sources; the fields are the ones
    the member functions use.

    One section's staging buffer.  [Contents] is the base address of the
    owned local buffer. *)
Record Alloc := mkAlloc {
  Size : Z;
  Align : Z;
  Contents : Z;
  RemoteAddr : ExecutorAddr
}.

Record EHFrame := mkEHFrame {
  Addr : ExecutorAddr;
  FrameSize : Z
}.

Record AllocGroup := mkAllocGroup {
  RemoteCode : ExecutorAddrRange;
  RemoteROData : ExecutorAddrRange;
  RemoteRWData : ExecutorAddrRange;
  UnfinalizedEHFrames : list EHFrame;
  CodeAllocs : list Alloc;
  RODataAllocs : list Alloc;
  RWDataAllocs : list Alloc
}.

(** AllocGroup() : everything default-constructed. *)
Definition newAllocGroup : AllocGroup :=
  {| RemoteCode := emptyRange; RemoteROData := emptyRange;
     RemoteRWData := emptyRange; UnfinalizedEHFrames := [];
     CodeAllocs := []; RODataAllocs := []; RWDataAllocs := [] |}.

Record SymbolAddrs := mkSymbolAddrs {
  Instance : ExecutorAddr;
  Reserve : ExecutorAddr;
  Finalize : ExecutorAddr;
  Deallocate : ExecutorAddr;
  RegisterEHFrame : ExecutorAddr;
  DeregisterEHFrame : ExecutorAddr
}.

Record Manager := mkManager {
  Unmapped : list AllocGroup;
  Unfinalized : list AllocGroup;
  FinalizedAllocs : list ExecutorAddr;
  ErrMsg : string
}.

Definition setErrMsg (m : Manager) (msg : string) : Manager :=
  {| Unmapped := Unmapped m; Unfinalized := Unfinalized m;
     FinalizedAllocs := FinalizedAllocs m; ErrMsg := msg |}.

Definition setUnmapped (m : Manager) (gs : list AllocGroup) : Manager :=
  {| Unmapped := gs; Unfinalized := Unfinalized m;
     FinalizedAllocs := FinalizedAllocs m; ErrMsg := ErrMsg m |}.

Definition setUnfinalized (m : Manager) (gs : list AllocGroup) : Manager :=
  {| Unmapped := Unmapped m; Unfinalized := gs;
     FinalizedAllocs := FinalizedAllocs m; ErrMsg := ErrMsg m |}.

(** std::string::empty *)
Definition empty (s : string) : bool :=
  match s with EmptyString => true | String _ _ => false end.

(** The manager right after construction. *)
Definition newManager : Manager :=
  {| Unmapped := []; Unfinalized := []; FinalizedAllocs := []; ErrMsg := EmptyString |}.

(* ------------------------------------------------------------------ *)
(** ** Finalize requests *)

(** Modelled from the spec: the protection-flag constants of sys::Memory and
    tpctypes are declared outside the sources.  A flag set is a bit mask;
    toWireProtectionFlags translates the local bits into the wire bits. *)
Definition MF_READ : Z := 16777216.
Definition MF_WRITE : Z := 33554432.
Definition MF_EXEC : Z := 67108864.

Definition WPF_None : Z := 0.
Definition WPF_Read : Z := 1.
Definition WPF_Write : Z := 2.
Definition WPF_Exec : Z := 4.

Definition toWireProtectionFlags (PF : Z) : Z :=
  let r := if Z.land PF MF_READ =? 0 then WPF_None else WPF_Read in
  let w := if Z.land PF MF_WRITE =? 0 then WPF_None else WPF_Write in
  let x := if Z.land PF MF_EXEC =? 0 then WPF_None else WPF_Exec in
  Z.lor (Z.lor r w) x.

(** Modelled from the spec: the finalize request (tpctypes) is declared
    outside the sources; it carries per segment an address, protection
    flags, a size and the byte content, and per action a register and a
    deregister call.

    One memcpy into the aggregate buffer of a segment. *)
Record Copy := mkCopy {
  DstOffset : Z;
  Src : Z;
  Len : Z
}.

(** Seg.Content = {AggregateContents[I].get(), SecOffset}: a buffer of
    [BufferSize] zero bytes overwritten by [Copies], of which the first
    [ContentSize] bytes are sent. *)
Record SegContent := mkSegContent {
  BufferSize : Z;
  Copies : list Copy;
  ContentSize : Z
}.

Record SegFinalizeRequest := mkSegFinalizeRequest {
  Prot : Z;
  SegAddr : ExecutorAddr;
  SegSize : Z;
  Content : SegContent
}.

Record SupportFunctionCall := mkSupportFunctionCall {
  Func : ExecutorAddr;
  ArgData : ExecutorAddr;
  ArgSize : Z
}.

Record AllocationActionsPair := mkAllocationActionsPair {
  FinalizeAction : SupportFunctionCall;
  DeallocateAction : SupportFunctionCall
}.

Record FinalizeRequest := mkFinalizeRequest {
  Segments : list SegFinalizeRequest;
  Actions : list AllocationActionsPair
}.

(* ------------------------------------------------------------------ *)
(** ** The call channel *)

Inductive WrapperArgs :=
| ReserveArgs (instance : ExecutorAddr) (TotalSize : Z)
| FinalizeArgs (instance : ExecutorAddr) (FR : FinalizeRequest)
| DeallocateArgs (instance : ExecutorAddr) (Bases : list ExecutorAddr).

Record RemoteCall := mkRemoteCall {
  Target : ExecutorAddr;
  Args : WrapperArgs
}.

(** Modelled from the spec: ExecutorProcessControl is the external call
    channel; the member functions use getPageSize and callSPSWrapper.

    What one callSPSWrapper gives back: the Error it returns (channel or
    serialization failure), or the result slot filled in by the executor,
    itself an error or a value (0 when the remote function returns only
    an Error). *)
Inductive CallOutcome :=
| CallError (msg : string)
| RemoteError (msg : string)
| RemoteValue (v : Z).

Record ExecutorProcessControl := mkEPC {
  getPageSize : Z;
  respond : nat -> CallOutcome
}.

Definition Log := list RemoteCall.

Definition callSPSWrapper (EPC : ExecutorProcessControl) (log : Log)
    (FnAddr : ExecutorAddr) (args : WrapperArgs) : CallOutcome * Log :=
  (respond EPC (List.length log), log ++ [mkRemoteCall FnAddr args]).

(* ------------------------------------------------------------------ *)
(** ** std::vector helpers *)

(** v.back(), undefined ([None]) on an empty vector. *)
Definition back {A : Type} (v : list A) : option A :=
  match rev v with
  | [] => None
  | x :: _ => Some x
  end.

(** Assignment through the reference v.back(). *)
Definition setBack {A : Type} (v : list A) (x : A) : list A :=
  removelast v ++ [x].

(* ------------------------------------------------------------------ *)
(** ** The member functions *)

Section MemoryManager.

Variable EPC : ExecutorProcessControl.
Variable SAs : SymbolAddrs.

(** Alloc(Size, Align): the buffer comes from the heap, which picks its
    base address [Buf]; the remote address starts out null. *)
Definition emplaceAlloc (Buf Size Alignment : Z) : Alloc :=
  {| Size := Size; Align := Alignment; Contents := Buf; RemoteAddr := 0 |}.

Definition setCodeAllocs (g : AllocGroup) (Seg : list Alloc) : AllocGroup :=
  {| RemoteCode := RemoteCode g; RemoteROData := RemoteROData g;
     RemoteRWData := RemoteRWData g;
     UnfinalizedEHFrames := UnfinalizedEHFrames g;
     CodeAllocs := Seg; RODataAllocs := RODataAllocs g;
     RWDataAllocs := RWDataAllocs g |}.

Definition setRODataAllocs (g : AllocGroup) (Seg : list Alloc) : AllocGroup :=
  {| RemoteCode := RemoteCode g; RemoteROData := RemoteROData g;
     RemoteRWData := RemoteRWData g;
     UnfinalizedEHFrames := UnfinalizedEHFrames g;
     CodeAllocs := CodeAllocs g; RODataAllocs := Seg;
     RWDataAllocs := RWDataAllocs g |}.

Definition setRWDataAllocs (g : AllocGroup) (Seg : list Alloc) : AllocGroup :=
  {| RemoteCode := RemoteCode g; RemoteROData := RemoteROData g;
     RemoteRWData := RemoteRWData g;
     UnfinalizedEHFrames := UnfinalizedEHFrames g;
     CodeAllocs := CodeAllocs g; RODataAllocs := RODataAllocs g;
     RWDataAllocs := Seg |}.

(** allocateCodeSection(Size, Alignment, SectionID, SectionName); the last
    two arguments only feed the debug output.  [Buf] is the base of the
    buffer the heap hands to the new Alloc.  The result is [None] when
    Unmapped.back() is taken of an empty vector. *)
Definition allocateCodeSection (m : Manager) (Buf Size Alignment : Z)
    : option (Z * Manager) :=
  match back (Unmapped m) with
  | None => None
  | Some g =>
      let A := emplaceAlloc Buf Size Alignment in
      let Seg := CodeAllocs g ++ [A] in
      Some (alignAddr (Contents A) Alignment,
            setUnmapped m (setBack (Unmapped m) (setCodeAllocs g Seg)))
  end.

Definition allocateDataSection (m : Manager) (Buf Size Alignment : Z)
    (IsReadOnly : bool) : option (Z * Manager) :=
  match back (Unmapped m) with
  | None => None
  | Some g =>
      let A := emplaceAlloc Buf Size Alignment in
      let g' := if IsReadOnly
                then setRODataAllocs g (RODataAllocs g ++ [A])
                else setRWDataAllocs g (RWDataAllocs g ++ [A]) in
      Some (alignAddr (Contents A) Alignment,
            setUnmapped m (setBack (Unmapped m) g'))
  end.

Definition invalidCodeAlignment : string :=
  "Invalid code alignment in reserveAllocationSpace"%string.
Definition invalidRODataAlignment : string :=
  "Invalid ro-data alignment in reserveAllocationSpace"%string.
Definition invalidRWDataAlignment : string :=
  "Invalid rw-data alignment in reserveAllocationSpace"%string.

(** The group pushed by a successful reservation. *)
Definition reservedGroup (TargetAllocAddr : ExecutorAddr)
    (CodeSize RODataSize RWDataSize : Z) : AllocGroup :=
  let RemoteCode := rangeOfSize TargetAllocAddr
                      (alignTo CodeSize (getPageSize EPC)) in
  let RemoteROData := rangeOfSize (End RemoteCode)
                        (alignTo RODataSize (getPageSize EPC)) in
  let RemoteRWData := rangeOfSize (End RemoteROData)
                        (alignTo RWDataSize (getPageSize EPC)) in
  {| RemoteCode := RemoteCode; RemoteROData := RemoteROData;
     RemoteRWData := RemoteRWData; UnfinalizedEHFrames := [];
     CodeAllocs := []; RODataAllocs := []; RWDataAllocs := [] |}.

Definition reserveTotalSize (CodeSize RODataSize RWDataSize : Z) : Z :=
  let TotalSize := 0 in
  let TotalSize := wrap64 (TotalSize + alignTo CodeSize (getPageSize EPC)) in
  let TotalSize := wrap64 (TotalSize + alignTo RODataSize (getPageSize EPC)) in
  let TotalSize := wrap64 (TotalSize + alignTo RWDataSize (getPageSize EPC)) in
  TotalSize.

Definition reserveAllocationSpace (m : Manager) (log : Log)
    (CodeSize CodeAlign RODataSize RODataAlign RWDataSize RWDataAlign : Z)
    : Manager * Log :=
  if negb (empty (ErrMsg m)) then (m, log)
  else if negb (isPowerOf2_32 CodeAlign) || (CodeAlign >? getPageSize EPC)
  then (setErrMsg m invalidCodeAlignment, log)
  else if negb (isPowerOf2_32 RODataAlign) || (RODataAlign >? getPageSize EPC)
  then (setErrMsg m invalidRODataAlignment, log)
  else if negb (isPowerOf2_32 RWDataAlign) || (RWDataAlign >? getPageSize EPC)
  then (setErrMsg m invalidRWDataAlignment, log)
  else
    let TotalSize := reserveTotalSize CodeSize RODataSize RWDataSize in
    let '(TargetAllocAddr, log') :=
      callSPSWrapper EPC log (Reserve SAs)
        (ReserveArgs (Instance SAs) TotalSize) in
    match TargetAllocAddr with
    | CallError Err => (setErrMsg m Err, log')
    | RemoteError Err => (setErrMsg m Err, log')
    | RemoteValue A =>
        (setUnmapped m
           (Unmapped m ++ [reservedGroup A CodeSize RODataSize RWDataSize]),
         log')
    end.

Definition needsToReserveAllocationSpace : bool := true.

Definition groupContains (g : AllocGroup) (LA : ExecutorAddr) : bool :=
  contains (RemoteCode g) LA || contains (RemoteROData g) LA
  || contains (RemoteRWData g) LA.

Definition pushEHFrame (g : AllocGroup) (F : EHFrame) : AllocGroup :=
  {| RemoteCode := RemoteCode g; RemoteROData := RemoteROData g;
     RemoteRWData := RemoteRWData g;
     UnfinalizedEHFrames := UnfinalizedEHFrames g ++ [F];
     CodeAllocs := CodeAllocs g; RODataAllocs := RODataAllocs g;
     RWDataAllocs := RWDataAllocs g |}.

(** The loop of registerEHFrames over the groups in visiting order: the
    first group that contains the address gets the frame; [None] when the
    loop runs to its end. *)
Fixpoint registerLoop (LA : ExecutorAddr) (Sz : Z) (gs : list AllocGroup)
    : option (list AllocGroup) :=
  match gs with
  | [] => None
  | g :: rest =>
      if groupContains g LA
      then Some (pushEHFrame g (mkEHFrame LA Sz) :: rest)
      else option_map (cons g) (registerLoop LA Sz rest)
  end.

Definition ehFrameOutside : string :=
  "eh-frame does not lie inside unfinalized alloc"%string.

(** registerEHFrames(Addr, LoadAddr, Size); Addr is not used. *)
Definition registerEHFrames (m : Manager) (LoadAddr Sz : Z) : Manager :=
  if negb (empty (ErrMsg m)) then m
  else
    let LA := LoadAddr in
    match registerLoop LA Sz (rev (Unfinalized m)) with
    | Some gs => setUnfinalized m (rev gs)
    | None => setErrMsg m ehFrameOutside
    end.

Definition deregisterEHFrames (m : Manager) : Manager := m.

Definition setRemoteAddr (A : Alloc) (R : ExecutorAddr) : Alloc :=
  {| Size := Size A; Align := Align A; Contents := Contents A;
     RemoteAddr := R |}.

(** The loop of mapAllocsToRemoteAddrs: the updated Allocs, the calls of
    Dyld.mapSectionAddress (local address, target address) in order, and
    the value of NextAddr when the loop ends. *)
Fixpoint mapAllocsLoop (Allocs : list Alloc) (NextAddr : ExecutorAddr)
    : list Alloc * list (Z * Z) * ExecutorAddr :=
  match Allocs with
  | [] => ([], [], NextAddr)
  | A :: rest =>
      let NextAddr := alignTo NextAddr (Align A) in
      let mapping := (alignAddr (Contents A) (Align A), NextAddr) in
      let A' := setRemoteAddr A NextAddr in
      let NextAddr := if NextAddr =? 0 then NextAddr
                      else wrap64 (NextAddr + Size A) in
      let '(rest', mappings, final) := mapAllocsLoop rest NextAddr in
      (A' :: rest', mapping :: mappings, final)
  end.

Definition mapAllocsToRemoteAddrs (Allocs : list Alloc)
    (NextAddr : ExecutorAddr) : list Alloc * list (Z * Z) :=
  fst (mapAllocsLoop Allocs NextAddr).

(** One iteration of the loop of notifyObjectLoaded, up to the push. *)
Definition mapGroup (ObjAllocs : AllocGroup) : AllocGroup * list (Z * Z) :=
  let '(C, mc) := mapAllocsToRemoteAddrs (CodeAllocs ObjAllocs)
                    (Start (RemoteCode ObjAllocs)) in
  let '(RO, mro) := mapAllocsToRemoteAddrs (RODataAllocs ObjAllocs)
                      (Start (RemoteROData ObjAllocs)) in
  let '(RW, mrw) := mapAllocsToRemoteAddrs (RWDataAllocs ObjAllocs)
                      (Start (RemoteRWData ObjAllocs)) in
  (setRWDataAllocs (setRODataAllocs (setCodeAllocs ObjAllocs C) RO) RW,
   mc ++ mro ++ mrw).

(** notifyObjectLoaded: the new manager and the section mappings reported
    to the loader. *)
Definition notifyObjectLoaded (m : Manager) : Manager * list (Z * Z) :=
  let '(Unf, mappings) :=
    fold_left
      (fun acc ObjAllocs =>
         let '(g, ms) := mapGroup ObjAllocs in
         (fst acc ++ [g], snd acc ++ ms))
      (Unmapped m) (Unfinalized m, []) in
  (setUnmapped (setUnfinalized m Unf) [], mappings).

(** First inner loop of finalizeMemory: Seg.Size. *)
Fixpoint segSizeLoop (Allocs : list Alloc) (SegSz : Z) : Z :=
  match Allocs with
  | [] => SegSz
  | SecAlloc :: rest =>
      let SegSz := alignTo SegSz (Align SecAlloc) in
      let SegSz := wrap64 (SegSz + Size SecAlloc) in
      segSizeLoop rest SegSz
  end.

(** Second inner loop of finalizeMemory: the memcpy calls and the final
    SecOffset. *)
Fixpoint copyLoop (Allocs : list Alloc) (SecOffset : Z) : list Copy * Z :=
  match Allocs with
  | [] => ([], SecOffset)
  | SecAlloc :: rest =>
      let SecOffset := alignTo SecOffset (Align SecAlloc) in
      let c := {| DstOffset := SecOffset;
                  Src := alignAddr (Contents SecAlloc) (Align SecAlloc);
                  Len := Size SecAlloc |} in
      let SecOffset := wrap64 (SecOffset + Size SecAlloc) in
      let '(cs, final) := copyLoop rest SecOffset in
      (c :: cs, final)
  end.

Definition SegProts : list Z :=
  [ toWireProtectionFlags (Z.lor MF_READ MF_EXEC);
    toWireProtectionFlags MF_READ;
    toWireProtectionFlags (Z.lor MF_READ MF_WRITE) ].

Definition RemoteAddrs (ObjAllocs : AllocGroup) : list ExecutorAddrRange :=
  [ RemoteCode ObjAllocs; RemoteROData ObjAllocs; RemoteRWData ObjAllocs ].

Definition SegSections (ObjAllocs : AllocGroup) : list (list Alloc) :=
  [ CodeAllocs ObjAllocs; RODataAllocs ObjAllocs; RWDataAllocs ObjAllocs ].

(** Body of the loop over I. *)
Definition makeSegment (P : Z) (R : ExecutorAddrRange) (Secs : list Alloc)
    : SegFinalizeRequest :=
  let SegSz := segSizeLoop Secs 0 in
  let '(copies, SecOffset) := copyLoop Secs 0 in
  {| Prot := P; SegAddr := Start R; SegSize := SegSz;
     Content := {| BufferSize := SegSz; Copies := copies;
                   ContentSize := SecOffset |} |}.

Fixpoint makeSegments (Ps : list Z) (Rs : list ExecutorAddrRange)
    (Ss : list (list Alloc)) : list SegFinalizeRequest :=
  match Ps, Rs, Ss with
  | P :: Ps', R :: Rs', Secs :: Ss' =>
      makeSegment P R Secs :: makeSegments Ps' Rs' Ss'
  | _, _, _ => []
  end.

Definition makeFinalizeRequest (ObjAllocs : AllocGroup) : FinalizeRequest :=
  {| Segments := makeSegments SegProts (RemoteAddrs ObjAllocs)
                   (SegSections ObjAllocs);
     Actions :=
       map (fun Frame =>
              {| FinalizeAction :=
                   mkSupportFunctionCall (RegisterEHFrame SAs)
                     (Addr Frame) (FrameSize Frame);
                 DeallocateAction :=
                   mkSupportFunctionCall (DeregisterEHFrame SAs)
                     (Addr Frame) (FrameSize Frame) |})
           (UnfinalizedEHFrames ObjAllocs) |}.

(** The caller's string behind the pointer ErrMsg: [None] is a null
    pointer. *)
Definition nonNull (Out : option string) : bool :=
  match Out with
  | None => false
  | Some _ => true
  end.

(** if (ErrMsg) *ErrMsg = msg. *)
Definition assignOut (Out : option string) (msg : string) : option string :=
  match Out with
  | None => None
  | Some _ => Some msg
  end.

(** The loop of finalizeMemory over the groups taken from Unfinalized. *)
Fixpoint finalizeLoop (Allocs : list AllocGroup) (m : Manager)
    (Out : option string) (log : Log)
    : bool * option string * Manager * Log :=
  match Allocs with
  | [] => (false, Out, m, log)
  | ObjAllocs :: rest =>
      let FR := makeFinalizeRequest ObjAllocs in
      let '(FinalizeErr, log') :=
        callSPSWrapper EPC log (Finalize SAs)
          (FinalizeArgs (Instance SAs) FR) in
      match FinalizeErr with
      | CallError Err => (true, assignOut Out Err, setErrMsg m Err, log')
      | RemoteError Err => (true, assignOut Out Err, setErrMsg m Err, log')
      | RemoteValue _ => finalizeLoop rest m Out log'
      end
  end.

(** finalizeMemory(std::string *ErrMsg): the returned flag, the caller's
    string after the call, the manager and the log.  Moving the member
    string out leaves it empty. *)
Definition finalizeMemory (m : Manager) (Out : option string) (log : Log)
    : bool * option string * Manager * Log :=
  if nonNull Out && negb (empty (ErrMsg m))
  then (true, assignOut Out (ErrMsg m), setErrMsg m EmptyString, log)
  else finalizeLoop (Unfinalized m) (setUnfinalized m []) Out log.

(** The destructor: the lines written to errs() and the log. *)
Definition destructor (m : Manager) (log : Log) : list string * Log :=
  let errs := if negb (empty (ErrMsg m))
              then [("Destroying with existing errors:" ++ ErrMsg m)%string]
              else [] in
  let '(Err, log') :=
    callSPSWrapper EPC log (Reserve SAs)
      (DeallocateArgs (Instance SAs) (FinalizedAllocs m)) in
  match Err with
  | CallError Err2 => (errs ++ [Err2], log')
  | RemoteError Err => (errs ++ [Err], log')
  | RemoteValue _ => (errs, log')
  end.

End MemoryManager.

(* ------------------------------------------------------------------ *)
(** ** The layout in unbounded arithmetic

    The layout as the design describes it: walk the sections in staging
    order, round the running position up to the section's alignment, place
    the section there and advance by its size.  The result is the list of
    positions and the position after the last section. *)

Fixpoint specLayout (next : Z) (Allocs : list Alloc) : list Z * Z :=
  match Allocs with
  | [] => ([], next)
  | A :: rest =>
      let pos := roundUp next (Align A) in
      let '(ps, e) := specLayout (pos + Size A) rest in
      (pos :: ps, e)
  end.

(** The layout started at [next] stays inside 64-bit arithmetic: every
    alignment is positive, every size non-negative, and neither the
    rounding nor the advance wraps around. *)
Fixpoint layoutFits (next : Z) (Allocs : list Alloc) : Prop :=
  match Allocs with
  | [] => True
  | A :: rest =>
      0 < Align A /\ 0 <= Size A /\
      next + Align A - 1 < 2 ^ 64 /\
      roundUp next (Align A) + Size A < 2 ^ 64 /\
      layoutFits (roundUp next (Align A) + Size A) rest
  end.

(** The remote offset of a mapped section relative to its range start. *)
Definition remoteOffset (RangeStart : ExecutorAddr) (A : Alloc) : Z :=
  wrap64 (RemoteAddr A - RangeStart).

(** Planning and commit agree on one segment: the offsets from the range
    start of the sections as notifyObjectLoaded mapped them are the
    destinations of the copies finalizeMemory makes into the aggregate
    buffer, and the size of the segment is the offset reached after the
    last copy. *)
Definition segmentAgrees (R : ExecutorAddrRange) (mapped : list Alloc)
    (Seg : SegFinalizeRequest) : Prop :=
  map (remoteOffset (Start R)) mapped = map DstOffset (Copies (Content Seg))
  /\ SegSize Seg = ContentSize (Content Seg).

(** The same for one protection class, from the staged sections. *)
Definition offsetsAgree (R : ExecutorAddrRange) (Allocs : list Alloc) : Prop :=
  let mapped := fst (mapAllocsToRemoteAddrs Allocs (Start R)) in
  segmentAgrees R mapped (makeSegment WPF_None R mapped).

(** The same for a whole group: the group goes through the loop body of
    notifyObjectLoaded and then through the request building of
    finalizeMemory. *)
Definition groupOffsetsAgree (SAs : SymbolAddrs) (g : AllocGroup) : Prop :=
  let g' := fst (mapGroup g) in
  exists code ro rw,
    Segments (makeFinalizeRequest SAs g') = [code; ro; rw] /\
    segmentAgrees (RemoteCode g') (CodeAllocs g') code /\
    segmentAgrees (RemoteROData g') (RODataAllocs g') ro /\
    segmentAgrees (RemoteRWData g') (RWDataAllocs g') rw.

(** The range start of a class is non-null and a multiple of every
    alignment of the class, and the layout from it does not wrap. *)
Definition classFits (R : ExecutorAddrRange) (Allocs : list Alloc) : Prop :=
  0 < Start R /\
  Forall (fun A => (Align A | Start R)) Allocs /\
  layoutFits (Start R) Allocs.

(* ------------------------------------------------------------------ *)
(** ** Vocabulary of the reservation statements *)

(** The alignment check of reserveAllocationSpace fails for [a]. *)
Definition invalidAlignment (EPC : ExecutorProcessControl) (a : Z) : bool :=
  negb (isPowerOf2_32 a) || (a >? getPageSize EPC).

(** The message of the first class, in the order code, read-only data,
    read-write data, whose alignment is invalid. *)
Definition offendingClassMessage (EPC : ExecutorProcessControl)
    (CodeAlign RODataAlign RWDataAlign : Z) : string :=
  if invalidAlignment EPC CodeAlign then invalidCodeAlignment
  else if invalidAlignment EPC RODataAlign then invalidRODataAlignment
  else invalidRWDataAlignment.

(** The reservation at base [A] stays inside 64-bit arithmetic: neither
    the page rounding of a class size nor the end of the last range wraps
    around. *)
Definition reservationFits (P A CodeSize RODataSize RWDataSize : Z) : Prop :=
  0 <= A /\ 0 <= CodeSize /\ 0 <= RODataSize /\ 0 <= RWDataSize /\
  CodeSize + P - 1 < 2 ^ 64 /\
  RODataSize + P - 1 < 2 ^ 64 /\
  RWDataSize + P - 1 < 2 ^ 64 /\
  A + roundUp CodeSize P + roundUp RODataSize P + roundUp RWDataSize P
    < 2 ^ 64.

(* ------------------------------------------------------------------ *)
(** ** Vocabulary of the finalize statements *)

(** The message of a failed call, whether the channel or the executor
    failed; [None] for a call that succeeded. *)
Definition outcomeError (o : CallOutcome) : option string :=
  match o with
  | CallError Err => Some Err
  | RemoteError Err => Some Err
  | RemoteValue _ => None
  end.

(** The groups a call of finalizeMemory takes out of Unfinalized: none
    when it returns early with the sticky error. *)
Definition takenGroups (m : Manager) (Out : option string) : list AllocGroup :=
  if nonNull Out && negb (empty (ErrMsg m)) then [] else Unfinalized m.

(** The groups for which the body of the loop of finalizeMemory runs when
    the next remote call is call number [n]: every group up to and
    including the first one whose call fails. *)
Fixpoint processedGroups (EPC : ExecutorProcessControl) (n : nat)
    (Allocs : list AllocGroup) : list AllocGroup :=
  match Allocs with
  | [] => []
  | g :: rest =>
      match outcomeError (respond EPC n) with
      | Some _ => [g]
      | None => g :: processedGroups EPC (S n) rest
      end
  end.

(** The paired action of one unwind frame. *)
Definition frameAction (SAs : SymbolAddrs) (F : EHFrame)
    : AllocationActionsPair :=
  {| FinalizeAction :=
       {| Func := RegisterEHFrame SAs; ArgData := Addr F;
          ArgSize := FrameSize F |};
     DeallocateAction :=
       {| Func := DeregisterEHFrame SAs; ArgData := Addr F;
          ArgSize := FrameSize F |} |}.

(** [c] is a finalize call for group [g]: it goes to the finalize entry
    point and carries the instance handle, three segments (code with read
    and execute, read-only data with read, read-write data with read and
    write, each at the start of the reserved range of its class) and one
    paired action per pending frame of the group. *)
Definition isFinalizeCallFor (SAs : SymbolAddrs) (g : AllocGroup)
    (c : RemoteCall) : Prop :=
  Target c = Finalize SAs /\
  exists FR code ro rw,
    Args c = FinalizeArgs (Instance SAs) FR /\
    Segments FR = [code; ro; rw] /\
    Prot code = Z.lor WPF_Read WPF_Exec /\
    SegAddr code = Start (RemoteCode g) /\
    Prot ro = WPF_Read /\
    SegAddr ro = Start (RemoteROData g) /\
    Prot rw = Z.lor WPF_Read WPF_Write /\
    SegAddr rw = Start (RemoteRWData g) /\
    Actions FR = map (frameAction SAs) (UnfinalizedEHFrames g).

(** The remote call the loop of finalizeMemory makes for group [g]. *)
Definition finalizeCall (SAs : SymbolAddrs) (g : AllocGroup) : RemoteCall :=
  mkRemoteCall (Finalize SAs)
    (FinalizeArgs (Instance SAs) (makeFinalizeRequest SAs g)).

(** The four results of finalizeMemory. *)
Definition returned (r : bool * option string * Manager * Log) : bool :=
  fst (fst (fst r)).
Definition reported (r : bool * option string * Manager * Log)
    : option string := snd (fst (fst r)).
Definition managerAfter (r : bool * option string * Manager * Log)
    : Manager := snd (fst r).
Definition logAfter (r : bool * option string * Manager * Log) : Log :=
  snd r.

(** A group is still available to a later call: the manager still holds
    it, among the unmapped or among the unfinalized groups. *)
Definition availableLater (m : Manager) (g : AllocGroup) : Prop :=
  In g (Unmapped m) \/ In g (Unfinalized m).

(* ------------------------------------------------------------------ *)
(** ** Concrete data for the examples *)

Definition exampleSAs : SymbolAddrs :=
  {| Instance := 100; Reserve := 1; Finalize := 2; Deallocate := 3;
     RegisterEHFrame := 4; DeregisterEHFrame := 5 |}.

(** An executor with 4096-byte pages that answers the first call with the
    value 65536 and every later call with success. *)
Definition exampleEPC : ExecutorProcessControl :=
  {| getPageSize := 4096;
     respond := fun n => match n with
                         | O => RemoteValue 65536
                         | S _ => RemoteValue 0
                         end |}.

(** An executor whose first call fails and whose later calls succeed. *)
Definition failFirstEPC : ExecutorProcessControl :=
  {| getPageSize := 4096;
     respond := fun n => match n with
                         | O => RemoteError "finalize failed"
                         | S _ => RemoteValue 0
                         end |}.

Definition exampleGroup1 : AllocGroup :=
  {| RemoteCode := {| Start := 4096; End := 8192 |};
     RemoteROData := {| Start := 8192; End := 8192 |};
     RemoteRWData := {| Start := 8192; End := 8192 |};
     UnfinalizedEHFrames := [];
     CodeAllocs := [mkAlloc 10 1 1000 4096];
     RODataAllocs := []; RWDataAllocs := [] |}.

Definition exampleGroup2 : AllocGroup :=
  {| RemoteCode := {| Start := 65536; End := 69632 |};
     RemoteROData := {| Start := 69632; End := 69632 |};
     RemoteRWData := {| Start := 69632; End := 69632 |};
     UnfinalizedEHFrames := [mkEHFrame 65540 24];
     CodeAllocs := [mkAlloc 32 16 2000 65536];
     RODataAllocs := []; RWDataAllocs := [] |}.

(** An executor that answers the first call with the base 4096. *)
Definition lowBaseEPC : ExecutorProcessControl :=
  {| getPageSize := 4096;
     respond := fun n => match n with
                         | O => RemoteValue 4096
                         | S _ => RemoteValue 0
                         end |}.

(** A reserved group at base 4096 with one staged code section whose
    alignment, 8192, is above the page size. *)
Definition overAlignedGroup : AllocGroup :=
  {| RemoteCode := {| Start := 4096; End := 8192 |};
     RemoteROData := {| Start := 8192; End := 8192 |};
     RemoteRWData := {| Start := 8192; End := 8192 |};
     UnfinalizedEHFrames := [];
     CodeAllocs := [mkAlloc 1 8192 1000 0];
     RODataAllocs := []; RWDataAllocs := [] |}.

(** The group of the scenario of the design document once it is mapped. *)
Definition scenarioGroup : AllocGroup :=
  {| RemoteCode := {| Start := 65536; End := 69632 |};
     RemoteROData := {| Start := 69632; End := 73728 |};
     RemoteRWData := {| Start := 73728; End := 73728 |};
     UnfinalizedEHFrames := [];
     CodeAllocs := [mkAlloc 10 1 1000 65536];
     RODataAllocs := [mkAlloc 4 4 2000 69632];
     RWDataAllocs := [] |}.

(* ------------------------------------------------------------------ *)
(** ** Sequences of member-function calls

    The loader drives the manager through its member functions.  A
    sequence of such calls is run from a manager and a log; the run has no
    result when a section allocation finds Unmapped empty. *)

Inductive MemberCall :=
| DoReserve (CodeSize CodeAlign RODataSize RODataAlign RWDataSize
             RWDataAlign : Z)
| DoAllocateCode (Buf Sz Alignment : Z)
| DoAllocateData (Buf Sz Alignment : Z) (IsReadOnly : bool)
| DoRegisterEHFrames (LoadAddr Sz : Z)
| DoDeregisterEHFrames
| DoNotifyObjectLoaded
| DoFinalizeMemory (Out : option string).

Definition isFinalizeMemory (c : MemberCall) : bool :=
  match c with
  | DoFinalizeMemory _ => true
  | _ => false
  end.

Definition doCall (EPC : ExecutorProcessControl) (SAs : SymbolAddrs)
    (st : Manager * Log) (c : MemberCall) : option (Manager * Log) :=
  let '(m, log) := st in
  match c with
  | DoReserve CodeSize CodeAlign RODataSize RODataAlign RWDataSize
      RWDataAlign =>
      Some (reserveAllocationSpace EPC SAs m log CodeSize CodeAlign
              RODataSize RODataAlign RWDataSize RWDataAlign)
  | DoAllocateCode Buf Sz Alignment =>
      option_map (fun pm => (snd pm, log))
        (allocateCodeSection m Buf Sz Alignment)
  | DoAllocateData Buf Sz Alignment IsReadOnly =>
      option_map (fun pm => (snd pm, log))
        (allocateDataSection m Buf Sz Alignment IsReadOnly)
  | DoRegisterEHFrames LoadAddr Sz =>
      Some (registerEHFrames m LoadAddr Sz, log)
  | DoDeregisterEHFrames => Some (deregisterEHFrames m, log)
  | DoNotifyObjectLoaded => Some (fst (notifyObjectLoaded m), log)
  | DoFinalizeMemory Out =>
      let r := finalizeMemory EPC SAs m Out log in
      Some (managerAfter r, logAfter r)
  end.

Fixpoint doCalls (EPC : ExecutorProcessControl) (SAs : SymbolAddrs)
    (st : Manager * Log) (cs : list MemberCall) : option (Manager * Log) :=
  match cs with
  | [] => Some st
  | c :: rest =>
      match doCall EPC SAs st c with
      | None => None
      | Some st' => doCalls EPC SAs st' rest
      end
  end.

(** A remote call the manager makes outside its destructor: a reserve
    call or the finalize call of some group. *)
Definition isManagerCall (SAs : SymbolAddrs) (c : RemoteCall) : Prop :=
  (exists TotalSize,
     c = mkRemoteCall (Reserve SAs) (ReserveArgs (Instance SAs) TotalSize))
  \/ (exists g, c = finalizeCall SAs g).

(** The finalize calls numbered from the length of [log] on, one per
    group of [Allocs], all succeed. *)
Definition callsSucceed (EPC : ExecutorProcessControl) (log : Log)
    (Allocs : list AllocGroup) : Prop :=
  forall i, (i < List.length Allocs)%nat ->
    outcomeError (respond EPC (List.length log + i)) = None.

(** Section [B] ends before section [C] begins in the executor. *)
Definition endsBefore (B C : Alloc) : Prop :=
  RemoteAddr B + Size B <= RemoteAddr C.

(** Copy [c] ends before copy [d] begins in the aggregate buffer. *)
Definition copyEndsBefore (c d : Copy) : Prop :=
  DstOffset c + Len c <= DstOffset d.

(* ------------------------------------------------------------------ *)
(** ** Arithmetic facts *)

Lemma wrap64_small (x : Z) : 0 <= x < 2 ^ 64 -> wrap64 x = x.
Proof. intros H. unfold wrap64. apply Z.mod_small. exact H. Qed.

Lemma wrap64_range (x : Z) : 0 <= wrap64 x < 2 ^ 64.
Proof. unfold wrap64. apply Z.mod_pos_bound. lia. Qed.

Lemma roundUp_bounds (v a : Z) :
  0 < a -> v <= roundUp v a <= v + a - 1.
Proof.
  intros Ha. unfold roundUp.
  pose proof (Z.div_mod (v + a - 1) a ltac:(lia)) as Hdm.
  pose proof (Z.mod_pos_bound (v + a - 1) a Ha) as Hm.
  rewrite (Z.mul_comm a) in Hdm. lia.
Qed.

Lemma roundUp_multiple (v a : Z) : (a | roundUp v a).
Proof. unfold roundUp. exists ((v + a - 1) / a). reflexivity. Qed.

Lemma roundUp_shift (s v a : Z) :
  0 < a -> (a | s) -> roundUp (s + v) a = s + roundUp v a.
Proof.
  intros Ha [k ->]. unfold roundUp.
  replace (k * a + v + a - 1) with (k * a + (v + a - 1)) by lia.
  rewrite Z.div_add_l by lia. lia.
Qed.

Lemma alignTo_roundUp (v a : Z) :
  0 <= v -> 0 < a -> v + a - 1 < 2 ^ 64 -> alignTo v a = roundUp v a.
Proof.
  intros Hv Ha Hlt. unfold alignTo.
  rewrite (wrap64_small (v + a - 1)) by lia.
  apply wrap64_small. fold (roundUp v a).
  pose proof (roundUp_bounds v a Ha). lia.
Qed.

Lemma alignTo_null (a : Z) : 0 <= a -> alignTo 0 a = 0.
Proof.
  intros Ha. unfold alignTo. destruct (Z.eq_dec a 0) as [-> | Hne].
  - rewrite Z.div_0_r. reflexivity.
  - replace (0 + a - 1) with (a - 1) by lia.
    pose proof (wrap64_range (a - 1)) as Hr.
    assert (Hle : wrap64 (a - 1) <= a - 1)
      by (unfold wrap64; apply Z.mod_le; lia).
    rewrite Z.div_small by lia. reflexivity.
Qed.

(* ------------------------------------------------------------------ *)
(** ** Address mapping and aggregation follow the layout *)

Lemma mapAllocsLoop_cons (A : Alloc) (rest : list Alloc) (N : Z) :
  mapAllocsLoop (A :: rest) N =
  let N1 := alignTo N (Align A) in
  let N2 := if N1 =? 0 then N1 else wrap64 (N1 + Size A) in
  let r := mapAllocsLoop rest N2 in
  (setRemoteAddr A N1 :: fst (fst r),
   (alignAddr (Contents A) (Align A), N1) :: snd (fst r),
   snd r).
Proof.
  simpl. destruct (mapAllocsLoop rest _) as [[x y] z]. reflexivity.
Qed.

Lemma copyLoop_cons (A : Alloc) (rest : list Alloc) (O : Z) :
  copyLoop (A :: rest) O =
  let O1 := alignTo O (Align A) in
  let r := copyLoop rest (wrap64 (O1 + Size A)) in
  (mkCopy O1 (alignAddr (Contents A) (Align A)) (Size A) :: fst r, snd r).
Proof.
  simpl. destruct (copyLoop rest _) as [x y]. reflexivity.
Qed.

Lemma specLayout_cons (A : Alloc) (rest : list Alloc) (n : Z) :
  specLayout n (A :: rest) =
  let pos := roundUp n (Align A) in
  let r := specLayout (pos + Size A) rest in
  (pos :: fst r, snd r).
Proof.
  simpl. destruct (specLayout _ rest) as [x y]. reflexivity.
Qed.

(** With a null running address nothing is mapped and nothing advances. *)
Lemma mapAllocsLoop_null (Allocs : list Alloc) :
  Forall (fun A => 0 <= Align A) Allocs ->
  Forall (fun A => RemoteAddr A = 0) (fst (fst (mapAllocsLoop Allocs 0))) /\
  Forall (fun p => snd p = 0) (snd (fst (mapAllocsLoop Allocs 0))) /\
  snd (mapAllocsLoop Allocs 0) = 0.
Proof.
  induction 1 as [| A rest HA _ IH].
  - simpl. repeat split; constructor.
  - rewrite mapAllocsLoop_cons. rewrite (alignTo_null _ HA). simpl.
    destruct IH as (I1 & I2 & I3). repeat split.
    + constructor; [reflexivity | exact I1].
    + constructor; [reflexivity | exact I2].
    + exact I3.
Qed.

(** With a non-null running address and no wrap-around the loop computes
    the layout. *)
Lemma mapAllocsLoop_layout (Allocs : list Alloc) :
  forall N, 0 < N -> layoutFits N Allocs ->
  map RemoteAddr (fst (fst (mapAllocsLoop Allocs N)))
    = fst (specLayout N Allocs) /\
  map snd (snd (fst (mapAllocsLoop Allocs N))) = fst (specLayout N Allocs) /\
  snd (mapAllocsLoop Allocs N) = snd (specLayout N Allocs).
Proof.
  induction Allocs as [| A rest IH]; intros N HN Hfit.
  - simpl. auto.
  - destruct Hfit as (Ha & Hs & H1 & H2 & Hrest).
    rewrite mapAllocsLoop_cons, specLayout_cons.
    pose proof (roundUp_bounds N (Align A) Ha) as Hb.
    rewrite (alignTo_roundUp N (Align A)) by lia.
    cbv zeta.
    destruct (Z.eqb_spec (roundUp N (Align A)) 0) as [E | _]; [lia |].
    rewrite (wrap64_small (roundUp N (Align A) + Size A)) by lia.
    destruct (IH (roundUp N (Align A) + Size A)) as (I1 & I2 & I3);
      [lia | exact Hrest |].
    simpl. rewrite I1, I2, I3. auto.
Qed.

(** The aggregation loop computes the layout started at its offset. *)
Lemma copyLoop_layout (Allocs : list Alloc) :
  forall O, 0 <= O -> layoutFits O Allocs ->
  map DstOffset (fst (copyLoop Allocs O)) = fst (specLayout O Allocs) /\
  snd (copyLoop Allocs O) = snd (specLayout O Allocs).
Proof.
  induction Allocs as [| A rest IH]; intros O HO Hfit.
  - simpl. auto.
  - destruct Hfit as (Ha & Hs & H1 & H2 & Hrest).
    rewrite copyLoop_cons, specLayout_cons.
    pose proof (roundUp_bounds O (Align A) Ha) as Hb.
    rewrite (alignTo_roundUp O (Align A)) by lia.
    cbv zeta.
    rewrite (wrap64_small (roundUp O (Align A) + Size A)) by lia.
    destruct (IH (roundUp O (Align A) + Size A)) as (I1 & I2);
      [lia | exact Hrest |].
    simpl. rewrite I1, I2. auto.
Qed.

(** The two inner loops of finalizeMemory run the same recurrence. *)
Lemma segSizeLoop_copyLoop (Allocs : list Alloc) :
  forall O, segSizeLoop Allocs O = snd (copyLoop Allocs O).
Proof.
  induction Allocs as [| A rest IH]; intros O.
  - reflexivity.
  - rewrite copyLoop_cons. simpl. apply IH.
Qed.

(** Moving the start of a layout by a multiple of every alignment moves
    every position by the same amount. *)
Lemma specLayout_shift (s : Z) (Allocs : list Alloc) :
  Forall (fun A => (Align A | s)) Allocs ->
  forall v, layoutFits (s + v) Allocs ->
  fst (specLayout (s + v) Allocs) = map (Z.add s) (fst (specLayout v Allocs))
  /\ snd (specLayout (s + v) Allocs) = s + snd (specLayout v Allocs).
Proof.
  induction 1 as [| A rest HA _ IH]; intros v Hfit.
  - simpl. auto.
  - destruct Hfit as (Ha & Hs & H1 & H2 & Hrest).
    rewrite !specLayout_cons. cbv zeta.
    rewrite (roundUp_shift s v (Align A) Ha HA) in *.
    replace (s + roundUp v (Align A) + Size A)
      with (s + (roundUp v (Align A) + Size A)) in * by lia.
    destruct (IH _ Hrest) as (I1 & I2).
    simpl. rewrite I1, I2. auto.
Qed.

Lemma layoutFits_shift (s : Z) (Allocs : list Alloc) :
  0 <= s ->
  Forall (fun A => (Align A | s)) Allocs ->
  forall v, layoutFits (s + v) Allocs -> layoutFits v Allocs.
Proof.
  intros Hs0. induction 1 as [| A rest HA _ IH]; intros v Hfit.
  - exact I.
  - destruct Hfit as (Ha & Hs & H1 & H2 & Hrest). simpl.
    rewrite (roundUp_shift s v (Align A) Ha HA) in *.
    repeat split; try lia.
    apply IH.
    replace (s + (roundUp v (Align A) + Size A))
      with (s + roundUp v (Align A) + Size A) by lia.
    exact Hrest.
Qed.

Lemma copyLoop_mapped (Allocs : list Alloc) :
  forall N O, copyLoop (fst (fst (mapAllocsLoop Allocs N))) O = copyLoop Allocs O.
Proof.
  induction Allocs as [| A rest IH]; intros N O.
  - reflexivity.
  - rewrite mapAllocsLoop_cons. cbv zeta.
    cbn [fst snd]. rewrite !copyLoop_cons. cbv zeta.
    cbn [Align Size Contents setRemoteAddr]. rewrite IH. reflexivity.
Qed.

Lemma makeSegment_fields (P : Z) (R : ExecutorAddrRange) (Secs : list Alloc) :
  Prot (makeSegment P R Secs) = P /\
  SegAddr (makeSegment P R Secs) = Start R /\
  SegSize (makeSegment P R Secs) = segSizeLoop Secs 0 /\
  Copies (Content (makeSegment P R Secs)) = fst (copyLoop Secs 0) /\
  ContentSize (Content (makeSegment P R Secs)) = snd (copyLoop Secs 0).
Proof.
  unfold makeSegment. destruct (copyLoop Secs 0) as [cs fin]. simpl. auto.
Qed.

(** C9. In mapAllocsToRemoteAddrs a null range start leaves every Alloc of
    the sequence with a null remote address (the loader is told address 0)
    and the running address stays null; from a non-null range start, as
    long as the 64-bit arithmetic does not wrap, every Alloc is placed at
    the running address rounded up to its alignment and the running address
    then advances by the Alloc's size. *)
Theorem mapAllocs_null_start_or_advance (Allocs : list Alloc) :
  Forall (fun A => 0 <= Align A) Allocs ->
  (Forall (fun A => RemoteAddr A = 0) (fst (mapAllocsToRemoteAddrs Allocs 0)) /\
   Forall (fun p => snd p = 0) (snd (mapAllocsToRemoteAddrs Allocs 0)) /\
   snd (mapAllocsLoop Allocs 0) = 0)
  /\
  (forall RangeStart, 0 < RangeStart -> layoutFits RangeStart Allocs ->
     map RemoteAddr (fst (mapAllocsToRemoteAddrs Allocs RangeStart))
       = fst (specLayout RangeStart Allocs) /\
     map snd (snd (mapAllocsToRemoteAddrs Allocs RangeStart))
       = fst (specLayout RangeStart Allocs) /\
     snd (mapAllocsLoop Allocs RangeStart) = snd (specLayout RangeStart Allocs)).
Proof.
  intros Hal. unfold mapAllocsToRemoteAddrs. split.
  - apply mapAllocsLoop_null. exact Hal.
  - intros RangeStart Hpos Hfit. apply mapAllocsLoop_layout; assumption.
Qed.

Lemma mapAllocs_null_start_or_advance_witness :
  let Allocs := [mkAlloc 10 1 1000 0; mkAlloc 4 4 2000 0] in
  Forall (fun A => 0 <= Align A) Allocs /\
  map RemoteAddr (fst (mapAllocsToRemoteAddrs Allocs 0)) = [0; 0] /\
  map RemoteAddr (fst (mapAllocsToRemoteAddrs Allocs 4096)) = [4096; 4108] /\
  snd (mapAllocsLoop Allocs 4096) = 4112.
Proof.
  intros Allocs.
  assert (Hal : Forall (fun A => 0 <= Align A) Allocs).
  { repeat constructor; simpl; lia. }
  assert (Hfit : layoutFits 4096 Allocs).
  { subst Allocs. unfold layoutFits, roundUp. simpl. lia. }
  split; [exact Hal |].
  destruct (mapAllocs_null_start_or_advance Allocs Hal) as [_ Hadv].
  destruct (Hadv 4096 ltac:(lia) Hfit) as (H1 & _ & H3).
  split; [reflexivity |]. split; [exact H1 | exact H3].
Defined.

(** Agreement for one protection class. *)
Lemma class_offsets_agree (R : ExecutorAddrRange) (Allocs : list Alloc) :
  classFits R Allocs -> offsetsAgree R Allocs.
Proof.
  intros (Hpos & Hdiv & Hfit). unfold offsetsAgree, segmentAgrees. cbv zeta.
  destruct (makeSegment_fields WPF_None R
              (fst (mapAllocsToRemoteAddrs Allocs (Start R))))
    as (_ & _ & -> & -> & ->).
  split; [| apply segSizeLoop_copyLoop].
  unfold mapAllocsToRemoteAddrs. rewrite copyLoop_mapped.
  assert (Hfit0 : layoutFits 0 Allocs).
  { apply (layoutFits_shift (Start R)); [lia | exact Hdiv |].
    rewrite Z.add_0_r. exact Hfit. }
  destruct (copyLoop_layout Allocs 0 ltac:(lia) Hfit0) as [-> _].
  destruct (mapAllocsLoop_layout Allocs (Start R) Hpos Hfit) as (Hm & _ & _).
  destruct (specLayout_shift (Start R) Allocs Hdiv 0) as [Hs _].
  { rewrite Z.add_0_r. exact Hfit. }
  rewrite Z.add_0_r in Hs.
  unfold remoteOffset.
  rewrite <- (map_map RemoteAddr (fun a => wrap64 (a - Start R))).
  rewrite Hm, Hs, map_map.
  (* every position of the layout from 0 is below 2^64 *)
  assert (Hpos0 : forall v, 0 <= v -> layoutFits v Allocs ->
            Forall (fun o => 0 <= o < 2 ^ 64) (fst (specLayout v Allocs))).
  { clear. induction Allocs as [| A rest IH]; intros v Hv Hf.
    - constructor.
    - destruct Hf as (Ha & Hsz & H1 & H2 & Hrest).
      rewrite specLayout_cons. cbv zeta. cbn [fst].
      pose proof (roundUp_bounds v (Align A) Ha).
      constructor; [lia | apply IH; [lia | exact Hrest]]. }
  specialize (Hpos0 0 ltac:(lia) Hfit0).
  clear Hs Hm.
  induction Hpos0 as [| o os Ho _ IHo]; [reflexivity |].
  simpl. rewrite IHo. f_equal.
  replace (Start R + o - Start R) with o by lia.
  apply wrap64_small. exact Ho.
Qed.

Lemma segmentAgrees_prot (P Q : Z) (R : ExecutorAddrRange)
    (mapped : list Alloc) :
  segmentAgrees R mapped (makeSegment P R mapped) ->
  segmentAgrees R mapped (makeSegment Q R mapped).
Proof.
  unfold segmentAgrees.
  destruct (makeSegment_fields P R mapped) as (_ & _ & -> & -> & ->).
  destruct (makeSegment_fields Q R mapped) as (_ & _ & -> & -> & ->).
  exact (fun H => H).
Qed.

(** C4, as amended. For a group in which every protection class has a
    non-null range start that is a multiple of the alignment of every Alloc
    of the class, and a layout that does not wrap around 64 bits: the
    offset of every section from its range start assigned by
    notifyObjectLoaded is the offset at which finalizeMemory copies that
    section into the aggregate buffer of its segment, and the size of each
    segment is the offset reached after its last section. *)
Theorem notify_finalize_offsets_agree (SAs : SymbolAddrs) (g : AllocGroup) :
  classFits (RemoteCode g) (CodeAllocs g) ->
  classFits (RemoteROData g) (RODataAllocs g) ->
  classFits (RemoteRWData g) (RWDataAllocs g) ->
  groupOffsetsAgree SAs g.
Proof.
  intros Hc Hro Hrw.
  apply class_offsets_agree in Hc, Hro, Hrw.
  unfold offsetsAgree in Hc, Hro, Hrw. cbv zeta in Hc, Hro, Hrw.
  unfold groupOffsetsAgree, mapGroup.
  destruct (mapAllocsToRemoteAddrs (CodeAllocs g) (Start (RemoteCode g)))
    as [C mc].
  destruct (mapAllocsToRemoteAddrs (RODataAllocs g) (Start (RemoteROData g)))
    as [RO mro].
  destruct (mapAllocsToRemoteAddrs (RWDataAllocs g) (Start (RemoteRWData g)))
    as [RW mrw].
  cbn [fst] in *.
  eexists _, _, _. split; [reflexivity |].
  cbn [RemoteCode RemoteROData RemoteRWData CodeAllocs RODataAllocs
       RWDataAllocs setCodeAllocs setRODataAllocs setRWDataAllocs].
  split; [| split]; eapply segmentAgrees_prot; eassumption.
Qed.

Lemma notify_finalize_offsets_agree_witness :
  groupOffsetsAgree exampleSAs
    {| RemoteCode := {| Start := 65536; End := 69632 |};
       RemoteROData := {| Start := 69632; End := 73728 |};
       RemoteRWData := {| Start := 73728; End := 73728 |};
       UnfinalizedEHFrames := [];
       CodeAllocs := [mkAlloc 10 1 1000 0; mkAlloc 6 16 3000 0];
       RODataAllocs := [mkAlloc 4 4 2000 0];
       RWDataAllocs := [] |}.
Proof.
  apply notify_finalize_offsets_agree; unfold classFits; cbn [RemoteCode
    RemoteROData RemoteRWData CodeAllocs RODataAllocs RWDataAllocs Start].
  - split; [reflexivity |]. split.
    + repeat constructor; cbn [Align].
      * exists 65536. reflexivity.
      * exists 4096. reflexivity.
    + unfold layoutFits, roundUp. simpl. lia.
  - split; [reflexivity |]. split.
    + repeat constructor; cbn [Align]. exists 17408. reflexivity.
    + unfold layoutFits, roundUp. simpl. lia.
  - split; [reflexivity |]. split; [constructor | exact I].
Defined.

(** C4, counterexample. The code range starts at 4096 and the section has
    alignment 8192: notifyObjectLoaded maps the section to 8192, offset
    4096 from the range start, and finalizeMemory copies it to offset 0 of
    the aggregate buffer. *)
Lemma offsets_disagree_alignment_above_start :
  ~ groupOffsetsAgree exampleSAs overAlignedGroup.
Proof.
  intros (code & ro & rw & Hseg & [H _] & _).
  vm_compute in Hseg. injection Hseg as <- _ _.
  vm_compute in H. discriminate H.
Qed.

(** The group of the counterexample is what the member functions build
    from a reservation answered with base 4096 followed by a code section
    of alignment 8192. *)
Example overAlignedGroup_reachable :
  let '(m1, _) :=
    reserveAllocationSpace lowBaseEPC exampleSAs newManager [] 1 1 0 1 0 1 in
  option_map (fun pm => Unmapped (snd pm))
    (allocateCodeSection m1 1000 1 8192)
  = Some [overAlignedGroup].
Proof. vm_compute. reflexivity. Qed.

Lemma isPowerOf2_32_pos (v : Z) : isPowerOf2_32 v = true -> 0 < v.
Proof.
  unfold isPowerOf2_32. intros H.
  apply andb_prop in H. destruct H as [Hnz Hland].
  apply negb_true_iff in Hnz. apply Z.eqb_neq in Hnz.
  apply Z.eqb_eq in Hland.
  destruct (Z_lt_le_dec v 0) as [Hneg | Hpos]; [| lia].
  assert (Hl : Z.land v (v - 1) < 0) by (apply Z.land_neg; lia).
  lia.
Qed.

Lemma invalidAlignment_false (EPC : ExecutorProcessControl) (a : Z) :
  invalidAlignment EPC a = false -> 0 < a <= getPageSize EPC.
Proof.
  unfold invalidAlignment. intros H.
  apply orb_false_iff in H. destruct H as [Hp Hle].
  apply negb_false_iff in Hp. apply isPowerOf2_32_pos in Hp.
  rewrite Z.gtb_ltb in Hle. apply Z.ltb_ge in Hle. lia.
Qed.

(** isPowerOf2_32 holds of the powers of two and of nothing else. *)
Lemma isPowerOf2_32_spec (v : Z) :
  isPowerOf2_32 v = true <-> exists k, 0 <= k /\ v = 2 ^ k.
Proof.
  split.
  - intros H. pose proof (isPowerOf2_32_pos v H) as Hpos.
    unfold isPowerOf2_32 in H. apply andb_prop in H. destruct H as [_ Hland].
    apply Z.eqb_eq in Hland.
    exists (Z.log2 v). split; [apply Z.log2_nonneg |].
    destruct (Z.eq_dec v (2 ^ Z.log2 v)) as [E | NE]; [exact E | exfalso].
    pose proof (Z.log2_spec v Hpos) as [Hlo Hhi].
    assert (Hlog : Z.log2 (v - 1) = Z.log2 v).
    { apply Z.log2_unique; [apply Z.log2_nonneg | lia]. }
    assert (Hb1 : Z.testbit v (Z.log2 v) = true) by (apply Z.bit_log2; lia).
    assert (Hb2 : Z.testbit (v - 1) (Z.log2 v) = true).
    { rewrite <- Hlog. apply Z.bit_log2.
      pose proof (Z.pow_pos_nonneg 2 (Z.log2 v) ltac:(lia) (Z.log2_nonneg v)).
      lia. }
    assert (Hb : Z.testbit (Z.land v (v - 1)) (Z.log2 v) = true).
    { rewrite Z.land_spec, Hb1, Hb2. reflexivity. }
    rewrite Hland in Hb. rewrite Z.bits_0 in Hb. discriminate Hb.
  - intros (k & Hk & ->). unfold isPowerOf2_32.
    pose proof (Z.pow_pos_nonneg 2 k ltac:(lia) Hk) as Hp.
    apply andb_true_intro. split.
    + apply negb_true_iff. apply Z.eqb_neq. lia.
    + apply Z.eqb_eq.
      replace (2 ^ k - 1) with (Z.ones k) by (rewrite Z.ones_equiv; lia).
      rewrite Z.land_ones by exact Hk. apply Z.mod_same. lia.
Qed.

(** With a page size that is a power of two, a range start on a page
    boundary is a multiple of every alignment that passes the check of
    reserveAllocationSpace. *)
Lemma page_aligned_start_divides (EPC : ExecutorProcessControl)
    (RangeStart : Z) (Allocs : list Alloc) :
  isPowerOf2_32 (getPageSize EPC) = true ->
  (getPageSize EPC | RangeStart) ->
  Forall (fun A => invalidAlignment EPC (Align A) = false) Allocs ->
  Forall (fun A => (Align A | RangeStart)) Allocs.
Proof.
  intros HP Hdiv Hall.
  induction Hall as [| A rest HA _ IH]; constructor; [| exact IH].
  pose proof (invalidAlignment_false EPC _ HA) as Hle.
  unfold invalidAlignment in HA. apply orb_false_iff in HA.
  destruct HA as [Hpow _]. apply negb_false_iff in Hpow.
  apply isPowerOf2_32_spec in Hpow. apply isPowerOf2_32_spec in HP.
  destruct Hpow as (i & Hi & Ei). destruct HP as (j & Hj & Ej).
  rewrite Ei in *. rewrite Ej in *.
  assert (Hij : i <= j).
  { destruct (Z_le_gt_dec i j) as [H | H]; [exact H | exfalso].
    assert (2 ^ j < 2 ^ i) by (apply Z.pow_lt_mono_r; lia). lia. }
  apply Z.divide_trans with (2 ^ j); [| exact Hdiv].
  exists (2 ^ (j - i)). rewrite <- Z.pow_add_r by lia. f_equal. lia.
Qed.

Section Reservation.

Variable EPC : ExecutorProcessControl.
Variable SAs : SymbolAddrs.

(** C6. A call of reserveAllocationSpace with an alignment that is not a
    power of two or is above the page size ends with the sticky error set,
    issues no remote call and pushes no group.  The error is the one that
    was already pending if there was one, and otherwise the message that
    names the first offending class. *)
Theorem reserve_invalid_alignment (m : Manager) (log : Log)
    (CodeSize CodeAlign RODataSize RODataAlign RWDataSize RWDataAlign : Z) :
  invalidAlignment EPC CodeAlign = true \/
  invalidAlignment EPC RODataAlign = true \/
  invalidAlignment EPC RWDataAlign = true ->
  let r := reserveAllocationSpace EPC SAs m log CodeSize CodeAlign
             RODataSize RODataAlign RWDataSize RWDataAlign in
  empty (ErrMsg (fst r)) = false /\
  ErrMsg (fst r) =
    (if empty (ErrMsg m)
     then offendingClassMessage EPC CodeAlign RODataAlign RWDataAlign
     else ErrMsg m) /\
  snd r = log /\
  Unmapped (fst r) = Unmapped m /\
  Unfinalized (fst r) = Unfinalized m.
Proof.
  intros Hbad r. subst r.
  unfold reserveAllocationSpace, offendingClassMessage.
  destruct (empty (ErrMsg m)) eqn:Hem; simpl.
  2:{ rewrite Hem. auto. }
  fold (invalidAlignment EPC CodeAlign).
  fold (invalidAlignment EPC RODataAlign).
  fold (invalidAlignment EPC RWDataAlign).
  destruct (invalidAlignment EPC CodeAlign); [simpl; auto |].
  destruct (invalidAlignment EPC RODataAlign); [simpl; auto |].
  destruct (invalidAlignment EPC RWDataAlign); [simpl; auto |].
  destruct Hbad as [H | [H | H]]; discriminate H.
Qed.

Lemma reservedGroup_ranges (A CodeSize RODataSize RWDataSize : Z) :
  0 < getPageSize EPC ->
  reservationFits (getPageSize EPC) A CodeSize RODataSize RWDataSize ->
  let P := getPageSize EPC in
  let g := reservedGroup EPC A CodeSize RODataSize RWDataSize in
  RemoteCode g = mkExecutorAddrRange A (A + roundUp CodeSize P) /\
  RemoteROData g =
    mkExecutorAddrRange (A + roundUp CodeSize P)
      (A + roundUp CodeSize P + roundUp RODataSize P) /\
  RemoteRWData g =
    mkExecutorAddrRange (A + roundUp CodeSize P + roundUp RODataSize P)
      (A + roundUp CodeSize P + roundUp RODataSize P + roundUp RWDataSize P).
Proof.
  intros HP Hfit P g. subst g P.
  unfold reservedGroup, rangeOfSize. cbn [RemoteCode RemoteROData
    RemoteRWData Start End].
  set (P := getPageSize EPC) in *.
  destruct Hfit as (HA & Hc & Hro & Hrw & Fc & Fro & Frw & Fsum).
  pose proof (roundUp_bounds CodeSize P HP).
  pose proof (roundUp_bounds RODataSize P HP).
  pose proof (roundUp_bounds RWDataSize P HP).
  rewrite !alignTo_roundUp by lia.
  rewrite (wrap64_small (A + roundUp CodeSize P)) by lia.
  rewrite (wrap64_small (A + roundUp CodeSize P + roundUp RODataSize P))
    by lia.
  rewrite (wrap64_small (A + roundUp CodeSize P + roundUp RODataSize P
                         + roundUp RWDataSize P)) by lia.
  auto.
Qed.

(** C5. A reservation that goes through (no error pending, the three
    alignments valid, the reserve call answered with a base address) and
    stays inside 64-bit arithmetic issues exactly one call, to the reserve
    entry point, asking for the sum of the three page-rounded class sizes;
    it pushes one group whose code range starts at the base, whose
    read-only range starts where the code range ends and whose read-write
    range starts where the read-only range ends, each as long as the
    page-rounded size of its class; no address lies in two of the ranges,
    and together they cover exactly the requested bytes from the base. *)
Theorem reserve_partitions_base (m : Manager) (log : Log)
    (CodeSize CodeAlign RODataSize RODataAlign RWDataSize RWDataAlign : Z)
    (A : ExecutorAddr) :
  empty (ErrMsg m) = true ->
  invalidAlignment EPC CodeAlign = false ->
  invalidAlignment EPC RODataAlign = false ->
  invalidAlignment EPC RWDataAlign = false ->
  respond EPC (List.length log) = RemoteValue A ->
  reservationFits (getPageSize EPC) A CodeSize RODataSize RWDataSize ->
  let P := getPageSize EPC in
  let Total := roundUp CodeSize P + roundUp RODataSize P
               + roundUp RWDataSize P in
  let r := reserveAllocationSpace EPC SAs m log CodeSize CodeAlign
             RODataSize RODataAlign RWDataSize RWDataAlign in
  snd r = log ++ [mkRemoteCall (Reserve SAs)
                    (ReserveArgs (Instance SAs) Total)] /\
  ErrMsg (fst r) = EmptyString /\
  exists g,
    Unmapped (fst r) = Unmapped m ++ [g] /\
    Start (RemoteCode g) = A /\
    Start (RemoteROData g) = End (RemoteCode g) /\
    Start (RemoteRWData g) = End (RemoteROData g) /\
    End (RemoteRWData g) = A + Total /\
    rangeSize (RemoteCode g) = roundUp CodeSize P /\
    rangeSize (RemoteROData g) = roundUp RODataSize P /\
    rangeSize (RemoteRWData g) = roundUp RWDataSize P /\
    (forall x, contains (RemoteCode g) x && contains (RemoteROData g) x
               = false) /\
    (forall x, contains (RemoteCode g) x && contains (RemoteRWData g) x
               = false) /\
    (forall x, contains (RemoteROData g) x && contains (RemoteRWData g) x
               = false) /\
    (forall x, groupContains g x = (A <=? x) && (x <? A + Total)).
Proof.
  intros Hem Vc Vro Vrw Hresp Hfit P Total r.
  assert (HP : 0 < getPageSize EPC)
    by (apply invalidAlignment_false in Vc; lia).
  pose proof (reservedGroup_ranges A CodeSize RODataSize RWDataSize HP Hfit)
    as (Rc & Rro & Rrw). cbv zeta in Rc, Rro, Rrw.
  subst r Total P. set (P := getPageSize EPC) in *.
  set (Total := roundUp CodeSize P + roundUp RODataSize P
                + roundUp RWDataSize P).
  destruct Hfit as (HA & Hc & Hro & Hrw & Fc & Fro & Frw & Fsum).
  pose proof (roundUp_bounds CodeSize P HP) as Bc.
  pose proof (roundUp_bounds RODataSize P HP) as Bro.
  pose proof (roundUp_bounds RWDataSize P HP) as Brw.
  unfold reserveAllocationSpace.
  rewrite Hem. cbn [negb].
  fold (invalidAlignment EPC CodeAlign). rewrite Vc.
  fold (invalidAlignment EPC RODataAlign). rewrite Vro.
  fold (invalidAlignment EPC RWDataAlign). rewrite Vrw.
  unfold callSPSWrapper. rewrite Hresp. cbn [fst snd].
  assert (HT : reserveTotalSize EPC CodeSize RODataSize RWDataSize = Total).
  { unfold reserveTotalSize. cbv zeta. fold P.
    rewrite !alignTo_roundUp by lia.
    rewrite (wrap64_small (0 + roundUp CodeSize P)) by lia.
    rewrite (wrap64_small (0 + roundUp CodeSize P + roundUp RODataSize P))
      by lia.
    rewrite wrap64_small by lia. unfold Total. lia. }
  rewrite HT. split; [reflexivity |].
  split.
  { cbn [fst setUnmapped ErrMsg].
    destruct (ErrMsg m); [reflexivity | discriminate Hem]. }
  exists (reservedGroup EPC A CodeSize RODataSize RWDataSize).
  unfold groupContains, rangeSize, contains.
  rewrite Rc, Rro, Rrw. cbn [Start End].
  assert (Hsz : forall a b, 0 <= b < 2 ^ 64 -> wrap64 (a + b - a) = b).
  { intros a b Hb. replace (a + b - a) with b by lia.
    apply wrap64_small. exact Hb. }
  split; [reflexivity |].
  split; [reflexivity |]. split; [reflexivity |]. split; [reflexivity |].
  split; [unfold Total; lia |].
  split; [apply Hsz; lia |]. split; [apply Hsz; lia |].
  split; [apply Hsz; lia |].
  unfold Total.
  repeat split; intros x;
    destruct (Z.leb_spec A x);
    destruct (Z.ltb_spec x (A + roundUp CodeSize P));
    destruct (Z.leb_spec (A + roundUp CodeSize P) x);
    destruct (Z.ltb_spec x (A + roundUp CodeSize P + roundUp RODataSize P));
    destruct (Z.leb_spec (A + roundUp CodeSize P + roundUp RODataSize P) x);
    destruct (Z.ltb_spec x (A + roundUp CodeSize P + roundUp RODataSize P
                            + roundUp RWDataSize P));
    destruct (Z.ltb_spec x (A + (roundUp CodeSize P + roundUp RODataSize P
                            + roundUp RWDataSize P)));
    simpl; try reflexivity; lia.
Qed.

End Reservation.

Lemma reserve_invalid_alignment_witness :
  let EPC := mkEPC 4096 (fun _ => RemoteValue 65536) in
  let SAs := mkSymbolAddrs 100 1 2 3 4 5 in
  let r := reserveAllocationSpace EPC SAs newManager [] 10 3 4 4 0 1 in
  ErrMsg (fst r) = invalidCodeAlignment /\ snd r = [] /\ Unmapped (fst r) = [].
Proof.
  intros EPC SAs r.
  destruct (reserve_invalid_alignment EPC SAs newManager [] 10 3 4 4 0 1)
    as (_ & Hmsg & Hlog & Hun & _).
  - left. reflexivity.
  - split; [exact Hmsg |]. split; [exact Hlog | exact Hun].
Defined.

Lemma reserve_partitions_base_witness :
  let EPC := mkEPC 4096 (fun _ => RemoteValue 65536) in
  let SAs := mkSymbolAddrs 100 1 2 3 4 5 in
  let r := reserveAllocationSpace EPC SAs newManager [] 10 1 4 4 0 1 in
  snd r = [mkRemoteCall 1 (ReserveArgs 100 8192)] /\
  exists g, Unmapped (fst r) = [g] /\
            RemoteCode g = mkExecutorAddrRange 65536 69632 /\
            RemoteROData g = mkExecutorAddrRange 69632 73728 /\
            RemoteRWData g = mkExecutorAddrRange 73728 73728.
Proof.
  intros EPC SAs r.
  destruct (reserve_partitions_base EPC SAs newManager [] 10 1 4 4 0 1 65536)
    as (Hlog & _ & g & Hg & _); try reflexivity.
  - unfold reservationFits, roundUp. simpl. lia.
  - split; [exact Hlog |].
    eexists. split; [reflexivity |]. repeat split; reflexivity.
Defined.

(* ------------------------------------------------------------------ *)
(** ** Unwind frame registration *)

Lemma existsb_rev {A : Type} (f : A -> bool) (l : list A) :
  existsb f (rev l) = existsb f l.
Proof.
  induction l as [| x l IH]; simpl.
  - reflexivity.
  - rewrite existsb_app, IH. simpl. rewrite orb_false_r. apply orb_comm.
Qed.

Section Registration.

Variable LA : ExecutorAddr.
Variable Sz : Z.

Lemma registerLoop_found (gs : list AllocGroup) :
  existsb (fun g => groupContains g LA) gs = true ->
  exists pre g post,
    gs = pre ++ g :: post /\
    Forall (fun h => groupContains h LA = false) pre /\
    groupContains g LA = true /\
    registerLoop LA Sz gs = Some (pre ++ pushEHFrame g (mkEHFrame LA Sz) :: post).
Proof.
  induction gs as [| g rest IH]; simpl; intros H.
  - discriminate H.
  - destruct (groupContains g LA) eqn:Hg.
    + exists [], g, rest. repeat split; auto.
    + simpl in H. destruct (IH H) as (pre & g' & post & -> & Hpre & Hg' & Hr).
      exists (g :: pre), g', post. rewrite Hr. repeat split; auto.
Qed.

Lemma registerLoop_not_found (gs : list AllocGroup) :
  existsb (fun g => groupContains g LA) gs = false ->
  registerLoop LA Sz gs = None.
Proof.
  induction gs as [| g rest IH]; simpl; intros H.
  - reflexivity.
  - apply orb_false_iff in H. destruct H as [-> Hrest].
    rewrite (IH Hrest). reflexivity.
Qed.

(** C7. With no sticky error pending: when some Unfinalized group has a
    code, read-only or read-write range that contains the load address,
    registerEHFrames appends the frame to the pending list of the most
    recently added such group, changes no other group and sets no error;
    when no group contains the address, it sets the sticky error to the
    consistency error and leaves every group as it was. *)
Theorem registerEHFrames_routes (m : Manager) :
  empty (ErrMsg m) = true ->
  (existsb (fun g => groupContains g LA) (Unfinalized m) = true ->
   exists older g newer,
     Unfinalized m = older ++ g :: newer /\
     groupContains g LA = true /\
     Forall (fun h => groupContains h LA = false) newer /\
     Unfinalized (registerEHFrames m LA Sz)
       = older ++ pushEHFrame g (mkEHFrame LA Sz) :: newer /\
     UnfinalizedEHFrames (pushEHFrame g (mkEHFrame LA Sz))
       = UnfinalizedEHFrames g ++ [mkEHFrame LA Sz] /\
     ErrMsg (registerEHFrames m LA Sz) = EmptyString /\
     Unmapped (registerEHFrames m LA Sz) = Unmapped m)
  /\
  (existsb (fun g => groupContains g LA) (Unfinalized m) = false ->
   ErrMsg (registerEHFrames m LA Sz) = ehFrameOutside /\
   Unfinalized (registerEHFrames m LA Sz) = Unfinalized m /\
   Unmapped (registerEHFrames m LA Sz) = Unmapped m).
Proof.
  intros Hem. unfold registerEHFrames. rewrite Hem. cbn [negb].
  split; intros Hex.
  - rewrite <- existsb_rev in Hex.
    destruct (registerLoop_found _ Hex) as (pre & g & post & Hrev & Hpre & Hg & ->).
    exists (rev post), g, (rev pre).
    assert (HU : Unfinalized m = rev post ++ g :: rev pre).
    { rewrite <- (rev_involutive (Unfinalized m)), Hrev, rev_app_distr.
      simpl. rewrite <- app_assoc. reflexivity. }
    split; [exact HU |]. split; [exact Hg |].
    split; [apply Forall_rev; exact Hpre |].
    cbn [Unfinalized setUnfinalized ErrMsg Unmapped].
    split.
    { rewrite rev_app_distr. simpl. rewrite <- app_assoc. reflexivity. }
    split; [reflexivity |].
    split; [| reflexivity].
    destruct (ErrMsg m); [reflexivity | discriminate Hem].
  - rewrite <- existsb_rev in Hex.
    rewrite (registerLoop_not_found _ Hex). simpl. auto.
Qed.

End Registration.

Lemma registerEHFrames_routes_witness :
  let g1 := reservedGroup (mkEPC 4096 (fun _ => RemoteValue 0)) 4096 10 4 0 in
  let g2 := reservedGroup (mkEPC 4096 (fun _ => RemoteValue 0)) 65536 10 4 0 in
  let m := mkManager [] [g1; g2] [] EmptyString in
  Unfinalized (registerEHFrames m 4100 24)
    = [pushEHFrame g1 (mkEHFrame 4100 24); g2] /\
  ErrMsg (registerEHFrames m 4100 24) = EmptyString /\
  ErrMsg (registerEHFrames m 20 24) = ehFrameOutside.
Proof.
  intros g1 g2 m.
  destruct (registerEHFrames_routes 4100 24 m eq_refl) as [Hin _].
  destruct (registerEHFrames_routes 20 24 m eq_refl) as [_ Hout].
  destruct (Hin eq_refl) as (older & g & newer & _ & _ & _ & _ & _ & He & _).
  destruct (Hout eq_refl) as (Hmsg & _).
  split; [reflexivity |]. split; [exact He | exact Hmsg].
Defined.

(* ------------------------------------------------------------------ *)
(** ** Finalize *)

Section Finalization.

Variable EPC : ExecutorProcessControl.
Variable SAs : SymbolAddrs.

Lemma finalizeCall_isFinalizeCallFor (g : AllocGroup) :
  isFinalizeCallFor SAs g (finalizeCall SAs g).
Proof.
  split; [reflexivity |].
  exists (makeFinalizeRequest SAs g),
    (makeSegment (Z.lor WPF_Read WPF_Exec) (RemoteCode g) (CodeAllocs g)),
    (makeSegment WPF_Read (RemoteROData g) (RODataAllocs g)),
    (makeSegment (Z.lor WPF_Read WPF_Write) (RemoteRWData g) (RWDataAllocs g)).
  split; [reflexivity |]. split; [reflexivity |].
  repeat split; try apply makeSegment_fields.
Qed.

Lemma finalizeLoop_step (g : AllocGroup) (rest : list AllocGroup)
    (m : Manager) (Out : option string) (log : Log) :
  finalizeLoop EPC SAs (g :: rest) m Out log =
  match outcomeError (respond EPC (List.length log)) with
  | Some Err => (true, assignOut Out Err, setErrMsg m Err,
                 log ++ [finalizeCall SAs g])
  | None => finalizeLoop EPC SAs rest m Out (log ++ [finalizeCall SAs g])
  end.
Proof.
  simpl. destruct (respond EPC (List.length log)); reflexivity.
Qed.

Lemma finalizeLoop_log (Allocs : list AllocGroup) :
  forall m Out log,
  logAfter (finalizeLoop EPC SAs Allocs m Out log)
  = log ++ map (finalizeCall SAs)
             (processedGroups EPC (List.length log) Allocs).
Proof.
  induction Allocs as [| g rest IH]; intros m Out log.
  - simpl. rewrite app_nil_r. reflexivity.
  - rewrite finalizeLoop_step. cbn [processedGroups].
    destruct (outcomeError (respond EPC (List.length log))) as [Err |].
    + reflexivity.
    + rewrite IH. rewrite length_app, Nat.add_1_r. cbn [List.length map].
      rewrite <- app_assoc. reflexivity.
Qed.

Lemma processedGroups_prefix (Allocs : list AllocGroup) :
  forall n, exists rest, Allocs = processedGroups EPC n Allocs ++ rest.
Proof.
  induction Allocs as [| g gs IH]; intros n.
  - exists []. reflexivity.
  - cbn [processedGroups].
    destruct (outcomeError (respond EPC n)).
    + exists gs. reflexivity.
    + destruct (IH (S n)) as [rest Hrest]. exists rest.
      simpl. rewrite <- Hrest. reflexivity.
Qed.

Lemma finalizeLoop_success (Allocs : list AllocGroup) :
  forall m Out log,
  returned (finalizeLoop EPC SAs Allocs m Out log) = false ->
  processedGroups EPC (List.length log) Allocs = Allocs /\
  reported (finalizeLoop EPC SAs Allocs m Out log) = Out /\
  managerAfter (finalizeLoop EPC SAs Allocs m Out log) = m.
Proof.
  induction Allocs as [| g rest IH]; intros m Out log.
  - simpl. auto.
  - rewrite finalizeLoop_step. cbn [processedGroups].
    destruct (outcomeError (respond EPC (List.length log))) as [Err |].
    + intros H. discriminate H.
    + intros H. destruct (IH _ _ _ H) as (H1 & H2 & H3).
      rewrite length_app, Nat.add_1_r in H1. cbn [List.length] in H1.
      rewrite H1. auto.
Qed.

(** C8. finalizeMemory issues exactly one remote call per group it
    processes, in processing order, and nothing else: each is a call to the
    finalize entry point whose request carries the three segments code
    (read and execute), read-only data (read) and read-write data (read and
    write), each addressed at the start of the reserved range of its class,
    and one paired register/deregister action per pending frame of the
    group, with the frame's address and size and the two resolved
    entry-point addresses.  The processed groups are the first of the taken
    groups, and all of them when the call reports success. *)
Theorem finalize_one_call_per_group (m : Manager) (Out : option string)
    (log : Log) :
  let r := finalizeMemory EPC SAs m Out log in
  let processed :=
    processedGroups EPC (List.length log) (takenGroups m Out) in
  (exists calls,
     logAfter r = log ++ calls /\
     Forall2 (isFinalizeCallFor SAs) processed calls) /\
  (exists rest, takenGroups m Out = processed ++ rest) /\
  (returned r = false -> processed = takenGroups m Out).
Proof.
  intros r processed. split; [| split].
  - exists (map (finalizeCall SAs) processed). split.
    + subst r processed. unfold finalizeMemory, takenGroups.
      destruct (nonNull Out && negb (empty (ErrMsg m))).
      * simpl. rewrite app_nil_r. reflexivity.
      * apply finalizeLoop_log.
    + induction processed as [| g gs IH]; simpl; constructor.
      * apply finalizeCall_isFinalizeCallFor.
      * exact IH.
  - apply processedGroups_prefix.
  - subst r processed. unfold finalizeMemory, takenGroups.
    destruct (nonNull Out && negb (empty (ErrMsg m))).
    + intros H. discriminate H.
    + intros H. apply (finalizeLoop_success _ _ _ _ H).
Qed.

Lemma finalizeLoop_failure (done : list AllocGroup) :
  forall g pending m Out log msg,
  (forall i, (i < List.length done)%nat ->
     outcomeError (respond EPC (List.length log + i)) = None) ->
  outcomeError (respond EPC (List.length log + List.length done)) = Some msg ->
  finalizeLoop EPC SAs (done ++ g :: pending) m Out log
  = (true, assignOut Out msg, setErrMsg m msg,
     log ++ map (finalizeCall SAs) (done ++ [g])).
Proof.
  induction done as [| d done IH]; intros g pending m Out log msg Hok Hfail.
  - simpl app. rewrite finalizeLoop_step.
    rewrite Nat.add_0_r in Hfail. rewrite Hfail. reflexivity.
  - simpl app. rewrite finalizeLoop_step.
    rewrite <- (Nat.add_0_r (List.length log)).
    rewrite (Hok 0%nat) by (simpl; lia).
    rewrite (IH g pending m Out (log ++ [finalizeCall SAs d]) msg).
    + cbn [map]. rewrite <- app_assoc. reflexivity.
    + intros i Hi. rewrite length_app. cbn [List.length].
      replace (List.length log + 1 + i)%nat
        with (List.length log + S i)%nat by lia.
      apply Hok. simpl. lia.
    + rewrite length_app. cbn [List.length].
      replace (List.length log + 1 + List.length done)%nat
        with (List.length log + List.length (d :: done))%nat
        by (simpl; lia).
      exact Hfail.
Qed.

(** A call that reports failure from the loop reports the message of the
    last remote call it made, which failed. *)
Lemma finalizeLoop_outcome (Allocs : list AllocGroup) :
  forall m Out log,
  let r := finalizeLoop EPC SAs Allocs m Out log in
  (returned r = false /\ reported r = Out /\ managerAfter r = m) \/
  (exists msg,
     returned r = true /\ reported r = assignOut Out msg /\
     managerAfter r = setErrMsg m msg /\
     (List.length log < List.length (logAfter r))%nat /\
     outcomeError (respond EPC (pred (List.length (logAfter r)))) = Some msg).
Proof.
  induction Allocs as [| g rest IH]; intros m Out log r; subst r.
  - left. simpl. auto.
  - rewrite finalizeLoop_step.
    destruct (outcomeError (respond EPC (List.length log))) as [Err |] eqn:E.
    + right. exists Err. unfold returned, reported, managerAfter, logAfter.
      cbn [fst snd]. rewrite length_app, Nat.add_1_r. cbn [List.length pred].
      repeat split; auto.
    + destruct (IH m Out (log ++ [finalizeCall SAs g])) as [Hl | Hr].
      * left. exact Hl.
      * right. destruct Hr as (msg & H1 & H2 & H3 & H4 & H5).
        exists msg. repeat split; auto.
        rewrite length_app in H4. lia.
Qed.

(** Whatever happens in the loop, a call that does not return early
    leaves Unfinalized empty. *)
Lemma finalizeLoop_manager (Allocs : list AllocGroup) :
  forall m Out log,
  Unfinalized (managerAfter (finalizeLoop EPC SAs Allocs m Out log))
    = Unfinalized m /\
  Unmapped (managerAfter (finalizeLoop EPC SAs Allocs m Out log))
    = Unmapped m /\
  FinalizedAllocs (managerAfter (finalizeLoop EPC SAs Allocs m Out log))
    = FinalizedAllocs m.
Proof.
  intros m Out log.
  destruct (finalizeLoop_outcome Allocs m Out log)
    as [(_ & _ & ->) | (msg & _ & _ & -> & _)]; simpl; auto.
Qed.

(** C3, as amended. When the finalize call of some group fails, the calls
    before it having succeeded, finalizeMemory reports failure with the
    message of the failed call, which becomes the sticky error, and makes
    no further remote call: one call for every group before the failed one
    and one for the failed group, none for the groups behind it.  Every
    taken group is gone from the manager afterwards, so a later call of
    finalizeMemory on the manager as it was left submits nothing: neither
    the completed groups, nor the failed one, nor the groups not yet
    processed. *)
Theorem finalize_failure_drops_taken_groups (m : Manager)
    (Out : option string) (log : Log)
    (done : list AllocGroup) (g : AllocGroup) (pending : list AllocGroup)
    (msg : string) :
  nonNull Out && negb (empty (ErrMsg m)) = false ->
  Unfinalized m = done ++ g :: pending ->
  (forall i, (i < List.length done)%nat ->
     outcomeError (respond EPC (List.length log + i)) = None) ->
  outcomeError (respond EPC (List.length log + List.length done)) = Some msg ->
  let r := finalizeMemory EPC SAs m Out log in
  returned r = true /\
  reported r = assignOut Out msg /\
  logAfter r = log ++ map (finalizeCall SAs) (done ++ [g]) /\
  ErrMsg (managerAfter r) = msg /\
  Unfinalized (managerAfter r) = [] /\
  Unmapped (managerAfter r) = Unmapped m /\
  (forall Out2 log2,
     logAfter (finalizeMemory EPC SAs (managerAfter r) Out2 log2) = log2).
Proof.
  intros Hgo HU Hok Hfail r. subst r.
  unfold finalizeMemory at 1 2 3 4 5 6. rewrite Hgo, HU.
  rewrite (finalizeLoop_failure done g pending _ Out log msg Hok Hfail).
  unfold returned, reported, logAfter, managerAfter. cbn [fst snd].
  repeat split; try reflexivity.
  intros Out2 log2. unfold finalizeMemory.
  rewrite Hgo, HU.
  rewrite (finalizeLoop_failure done g pending _ Out log msg Hok Hfail).
  cbn [fst snd Unfinalized setErrMsg setUnfinalized].
  destruct (nonNull Out2 && _); reflexivity.
Qed.

(** Draining the sticky error.  A call of finalizeMemory with a non-null
    error string while the sticky error is set reports that error at once:
    it returns true with the error in the caller's string, takes no group
    and issues no remote call, and leaves the sticky error cleared.  A
    later call therefore does not report it again: it either succeeds,
    leaving the caller's string alone, or reports the message of a remote
    call of its own that failed. *)
Theorem finalize_drains_sticky_error (m : Manager) (s : string) (log : Log) :
  empty (ErrMsg m) = false ->
  let r := finalizeMemory EPC SAs m (Some s) log in
  returned r = true /\
  reported r = Some (ErrMsg m) /\
  logAfter r = log /\
  Unfinalized (managerAfter r) = Unfinalized m /\
  Unmapped (managerAfter r) = Unmapped m /\
  ErrMsg (managerAfter r) = EmptyString /\
  (forall s2 log2,
     let r2 := finalizeMemory EPC SAs (managerAfter r) (Some s2) log2 in
     (returned r2 = false /\ reported r2 = Some s2) \/
     (exists msg,
        returned r2 = true /\ reported r2 = Some msg /\
        (List.length log2 < List.length (logAfter r2))%nat /\
        outcomeError (respond EPC (pred (List.length (logAfter r2))))
          = Some msg)).
Proof.
  intros Hem r.
  assert (Hr : r = (true, Some (ErrMsg m), setErrMsg m EmptyString, log)).
  { subst r. unfold finalizeMemory. rewrite Hem. reflexivity. }
  rewrite Hr. unfold returned, reported, logAfter, managerAfter.
  cbn [fst snd].
  do 6 (split; [reflexivity |]).
  intros s2 log2. unfold finalizeMemory. cbn [ErrMsg setErrMsg
    empty negb nonNull andb].
  destruct (finalizeLoop_outcome
              (Unfinalized (setErrMsg m EmptyString))
              (setUnfinalized (setErrMsg m EmptyString) []) (Some s2) log2)
    as [(H1 & H2 & _) | (msg & H1 & H2 & _ & H4 & H5)].
  - left. split; assumption.
  - right. exists msg. repeat split; assumption.
Qed.

End Finalization.

Lemma finalize_one_call_per_group_witness :
  let m := mkManager [] [exampleGroup1; exampleGroup2] [] EmptyString in
  let r := finalizeMemory exampleEPC exampleSAs m None [] in
  returned r = false /\
  exists c1 c2,
    logAfter r = [c1; c2] /\
    isFinalizeCallFor exampleSAs exampleGroup1 c1 /\
    isFinalizeCallFor exampleSAs exampleGroup2 c2.
Proof.
  intros m r.
  destruct (finalize_one_call_per_group exampleEPC exampleSAs m None [])
    as ((calls & Hlog & Hcalls) & _ & _).
  split; [reflexivity |].
  change (processedGroups exampleEPC (List.length (@nil RemoteCall))
            (takenGroups m None))
    with [exampleGroup1; exampleGroup2] in Hcalls.
  inversion Hcalls as [| g1 c1 gs cs Hc1 Hrest]; subst.
  inversion Hrest as [| g2 c2 gs' cs' Hc2 Hnil]; subst.
  inversion Hnil; subst.
  exists c1, c2. split; [exact Hlog |]. split; assumption.
Defined.

Lemma finalize_failure_drops_taken_groups_witness :
  let m := mkManager [] [exampleGroup1; exampleGroup2] [] EmptyString in
  let r := finalizeMemory failFirstEPC exampleSAs m (Some EmptyString) [] in
  returned r = true /\
  reported r = Some "finalize failed"%string /\
  logAfter r = [finalizeCall exampleSAs exampleGroup1] /\
  Unfinalized (managerAfter r) = [].
Proof.
  intros m r.
  destruct (finalize_failure_drops_taken_groups failFirstEPC exampleSAs m
              (Some EmptyString) [] [] exampleGroup1 [exampleGroup2]
              "finalize failed"%string)
    as (H1 & H2 & H3 & _ & H5 & _).
  - reflexivity.
  - reflexivity.
  - intros i Hi. simpl in Hi. lia.
  - reflexivity.
  - split; [exact H1 |]. split; [exact H2 |]. split; [exact H3 | exact H5].
Defined.

(** C3, counterexample. Two groups are pending and the call for the first
    one fails: the second group was taken but not processed, and it is not
    available to a later call.  The manager no longer holds it, and the
    next two calls (the first reports the sticky error, the second
    succeeds) submit nothing. *)
Lemma pending_group_lost_after_failure :
  let m := mkManager [] [exampleGroup1; exampleGroup2] [] EmptyString in
  let r := finalizeMemory failFirstEPC exampleSAs m (Some EmptyString) [] in
  let r2 := finalizeMemory failFirstEPC exampleSAs (managerAfter r)
              (Some EmptyString) (logAfter r) in
  let r3 := finalizeMemory failFirstEPC exampleSAs (managerAfter r2)
              (Some EmptyString) (logAfter r2) in
  returned r = true /\
  logAfter r = [finalizeCall exampleSAs exampleGroup1] /\
  ~ availableLater (managerAfter r) exampleGroup2 /\
  returned r2 = true /\
  returned r3 = false /\
  logAfter r3 = logAfter r.
Proof.
  intros m r r2 r3.
  split; [reflexivity |]. split; [reflexivity |].
  split; [| repeat split; reflexivity].
  intros [H | H]; exact H.
Qed.

Lemma finalize_drains_sticky_error_witness :
  let m := mkManager [] [exampleGroup1] [] "reserve failed"%string in
  let r := finalizeMemory exampleEPC exampleSAs m (Some EmptyString) [] in
  returned r = true /\
  reported r = Some "reserve failed"%string /\
  logAfter r = [] /\
  Unfinalized (managerAfter r) = [exampleGroup1] /\
  ErrMsg (managerAfter r) = EmptyString.
Proof.
  intros m r.
  destruct (finalize_drains_sticky_error exampleEPC exampleSAs m
              EmptyString [])
    as (H1 & H2 & H3 & H4 & _ & H6 & _).
  - reflexivity.
  - split; [exact H1 |]. split; [exact H2 |]. split; [exact H3 |].
    split; [exact H4 | exact H6].
Defined.

(** C2. finalizeMemory is called with a null error string while the
    sticky error is set: the call does not bail out.  It returns false,
    takes the pending group, issues a remote call for it, and leaves the
    sticky error in place.  The error paths further down in the same
    function return true whether or not the pointer is null. *)
Theorem sticky_error_not_reported_through_null :
  let m := mkManager [] [exampleGroup1] [] "reserve failed"%string in
  let r := finalizeMemory exampleEPC exampleSAs m None [] in
  returned r = false /\
  reported r = None /\
  logAfter r = [finalizeCall exampleSAs exampleGroup1] /\
  Unfinalized (managerAfter r) = [] /\
  ErrMsg (managerAfter r) = "reserve failed"%string.
Proof.
  intros m r. repeat split; reflexivity.
Qed.

(* ------------------------------------------------------------------ *)
(** ** Section staging *)

Lemma back_app {A : Type} (older : list A) (x : A) :
  back (older ++ [x]) = Some x.
Proof. unfold back. rewrite rev_app_distr. reflexivity. Qed.

Lemma setBack_app {A : Type} (older : list A) (x y : A) :
  setBack (older ++ [x]) y = older ++ [y].
Proof. unfold setBack. rewrite removelast_last. reflexivity. Qed.

Lemma nonempty_split_last {A : Type} (v : list A) :
  v <> [] -> exists older x, v = older ++ [x].
Proof.
  intros Hne. destruct (exists_last Hne) as (older & x & ->).
  exists older, x. reflexivity.
Qed.

(** The pointer handed back for a section lies in the first Alignment
    bytes of the buffer and is a multiple of the alignment, as long as the
    buffer does not sit at the very top of the address space. *)
Lemma alignAddr_rounds_up (Buf Alignment : Z) :
  0 <= Buf -> 0 < Alignment -> Buf + Alignment - 1 < 2 ^ 64 ->
  Buf <= alignAddr Buf Alignment <= Buf + Alignment - 1 /\
  (Alignment | alignAddr Buf Alignment).
Proof.
  intros HB HA Hfit. unfold alignAddr.
  rewrite alignTo_roundUp by lia.
  split; [apply roundUp_bounds; exact HA | apply roundUp_multiple].
Qed.

(** A reservation that goes through pushes exactly one group, so that the
    section allocations that follow find a last element. *)
Lemma reserve_success (EPC : ExecutorProcessControl) (SAs : SymbolAddrs)
    (m : Manager) (log : Log)
    (CodeSize CodeAlign RODataSize RODataAlign RWDataSize RWDataAlign : Z)
    (A : ExecutorAddr) :
  empty (ErrMsg m) = true ->
  invalidAlignment EPC CodeAlign = false ->
  invalidAlignment EPC RODataAlign = false ->
  invalidAlignment EPC RWDataAlign = false ->
  respond EPC (List.length log) = RemoteValue A ->
  reserveAllocationSpace EPC SAs m log CodeSize CodeAlign RODataSize
    RODataAlign RWDataSize RWDataAlign
  = (setUnmapped m
       (Unmapped m ++ [reservedGroup EPC A CodeSize RODataSize RWDataSize]),
     log ++ [mkRemoteCall (Reserve SAs)
               (ReserveArgs (Instance SAs)
                  (reserveTotalSize EPC CodeSize RODataSize RWDataSize))]).
Proof.
  intros Hem Vc Vro Vrw Hresp. unfold reserveAllocationSpace.
  rewrite Hem. cbn [negb].
  fold (invalidAlignment EPC CodeAlign). rewrite Vc.
  fold (invalidAlignment EPC RODataAlign). rewrite Vro.
  fold (invalidAlignment EPC RWDataAlign). rewrite Vrw.
  unfold callSPSWrapper. rewrite Hresp. reflexivity.
Qed.

(** A reserve call that fails, in the channel or in the executor, makes
    its message the sticky error and pushes no group. *)
Lemma reserve_call_failure (EPC : ExecutorProcessControl) (SAs : SymbolAddrs)
    (m : Manager) (log : Log)
    (CodeSize CodeAlign RODataSize RODataAlign RWDataSize RWDataAlign : Z)
    (msg : string) :
  empty (ErrMsg m) = true ->
  invalidAlignment EPC CodeAlign = false ->
  invalidAlignment EPC RODataAlign = false ->
  invalidAlignment EPC RWDataAlign = false ->
  outcomeError (respond EPC (List.length log)) = Some msg ->
  reserveAllocationSpace EPC SAs m log CodeSize CodeAlign RODataSize
    RODataAlign RWDataSize RWDataAlign
  = (setErrMsg m msg,
     log ++ [mkRemoteCall (Reserve SAs)
               (ReserveArgs (Instance SAs)
                  (reserveTotalSize EPC CodeSize RODataSize RWDataSize))]).
Proof.
  intros Hem Vc Vro Vrw Hresp. unfold reserveAllocationSpace.
  rewrite Hem. cbn [negb].
  fold (invalidAlignment EPC CodeAlign). rewrite Vc.
  fold (invalidAlignment EPC RODataAlign). rewrite Vro.
  fold (invalidAlignment EPC RWDataAlign). rewrite Vrw.
  unfold callSPSWrapper.
  destruct (respond EPC (List.length log)); simpl in Hresp;
    inversion Hresp; reflexivity.
Qed.

(** notifyObjectLoaded moves every unmapped group, mapped, behind the
    unfinalized ones and leaves Unmapped empty. *)
Lemma notifyObjectLoaded_moves_groups (m : Manager) :
  Unmapped (fst (notifyObjectLoaded m)) = [] /\
  Unfinalized (fst (notifyObjectLoaded m))
  = Unfinalized m ++ map (fun g => fst (mapGroup g)) (Unmapped m).
Proof.
  unfold notifyObjectLoaded.
  assert (H : forall gs acc,
            fst (fold_left
                   (fun acc ObjAllocs =>
                      let '(g, ms) := mapGroup ObjAllocs in
                      (fst acc ++ [g], snd acc ++ ms)) gs acc)
            = fst acc ++ map (fun g => fst (mapGroup g)) gs).
  { induction gs as [| g gs IH]; intros acc.
    - simpl. rewrite app_nil_r. reflexivity.
    - cbn [fold_left map]. rewrite IH.
      destruct (mapGroup g) as [g' ms]. cbn [fst].
      rewrite <- app_assoc. reflexivity. }
  specialize (H (Unmapped m) (Unfinalized m, [])).
  destruct (fold_left _ (Unmapped m) (Unfinalized m, [])) as [Unf maps].
  cbn [fst] in *. split; [reflexivity | exact H].
Qed.

(** Rounding up gives the least multiple of the alignment that is not
    below the value. *)
Lemma roundUp_least (v a q : Z) :
  0 < a -> v <= q -> (a | q) -> roundUp v a <= q.
Proof.
  intros Ha Hq [k ->].
  pose proof (roundUp_bounds v a Ha) as Hb.
  destruct (roundUp_multiple v a) as [j Hj]. rewrite Hj in *.
  destruct (Z_le_gt_dec j k) as [Hle | Hgt]; [nia |].
  assert (k + 1 <= j) by lia. nia.
Qed.

(** C10. allocateCodeSection and allocateDataSection take the last group
    of Unmapped without a check.  When Unmapped is empty the access has no
    defined result.  When Unmapped is not empty the access is in bounds
    and, for an alignment that is a power of two (what Align(Alignment)
    requires) and a buffer that does not sit at the very top of the address
    space, the returned pointer is the base of the new buffer rounded up to
    the requested alignment: the least multiple of the alignment that is
    not below the base, less than one alignment above it.  The new Alloc,
    with the requested size and alignment, that buffer and a null remote
    address, is appended to the code sequence, respectively to the
    read-only or read-write sequence, of the last group; the other
    sequences, the ranges and frames of that group, the older groups and
    the rest of the manager are unchanged. *)
Theorem allocateSection_needs_unmapped_group (m : Manager)
    (Buf Sz Alignment : Z) (IsReadOnly : bool) :
  isPowerOf2_32 Alignment = true ->
  0 <= Buf ->
  Buf + Alignment - 1 < 2 ^ 64 ->
  (Unmapped m = [] ->
   allocateCodeSection m Buf Sz Alignment = None /\
   allocateDataSection m Buf Sz Alignment IsReadOnly = None)
  /\
  (Unmapped m <> [] ->
   exists older g p mc gc md gd,
     Unmapped m = older ++ [g] /\
     allocateCodeSection m Buf Sz Alignment = Some (p, mc) /\
     allocateDataSection m Buf Sz Alignment IsReadOnly = Some (p, md) /\
     (* the pointer *)
     p = roundUp Buf Alignment /\
     Buf <= p <= Buf + Alignment - 1 /\
     (Alignment | p) /\
     (forall q, Buf <= q -> (Alignment | q) -> p <= q) /\
     (* the code section *)
     Unmapped mc = older ++ [gc] /\
     CodeAllocs gc = CodeAllocs g ++ [mkAlloc Sz Alignment Buf 0] /\
     RODataAllocs gc = RODataAllocs g /\
     RWDataAllocs gc = RWDataAllocs g /\
     (* the data section *)
     Unmapped md = older ++ [gd] /\
     CodeAllocs gd = CodeAllocs g /\
     RODataAllocs gd
     = (if IsReadOnly
        then RODataAllocs g ++ [mkAlloc Sz Alignment Buf 0]
        else RODataAllocs g) /\
     RWDataAllocs gd
     = (if IsReadOnly
        then RWDataAllocs g
        else RWDataAllocs g ++ [mkAlloc Sz Alignment Buf 0]) /\
     (* everything else *)
     Forall (fun g' =>
               RemoteCode g' = RemoteCode g /\
               RemoteROData g' = RemoteROData g /\
               RemoteRWData g' = RemoteRWData g /\
               UnfinalizedEHFrames g' = UnfinalizedEHFrames g) [gc; gd] /\
     Forall (fun m' =>
               Unfinalized m' = Unfinalized m /\
               FinalizedAllocs m' = FinalizedAllocs m /\
               ErrMsg m' = ErrMsg m) [mc; md]).
Proof.
  intros Hpow HBuf Hfit.
  pose proof (isPowerOf2_32_pos Alignment Hpow) as HA.
  split.
  - intros Hnil. unfold allocateCodeSection, allocateDataSection.
    rewrite Hnil. auto.
  - intros Hne. destruct (nonempty_split_last _ Hne) as (older & g & Hv).
    destruct (alignAddr_rounds_up Buf Alignment HBuf HA Hfit) as (Hb & Hd).
    assert (Hp : alignAddr Buf Alignment = roundUp Buf Alignment).
    { unfold alignAddr. apply alignTo_roundUp; lia. }
    exists older, g, (alignAddr Buf Alignment).
    unfold allocateCodeSection, allocateDataSection, emplaceAlloc.
    rewrite Hv, back_app, !setBack_app. cbn [Contents].
    eexists _, _, _, _.
    split; [reflexivity |]. split; [reflexivity |]. split; [reflexivity |].
    split; [exact Hp |]. split; [exact Hb |]. split; [exact Hd |].
    split.
    { intros q Hq Hdq. rewrite Hp. apply roundUp_least; assumption. }
    cbn [Unmapped setUnmapped].
    split; [reflexivity |]. split; [reflexivity |]. split; [reflexivity |].
    split; [reflexivity |]. split; [reflexivity |].
    split; [destruct IsReadOnly; reflexivity |].
    split; [destruct IsReadOnly; reflexivity |].
    split; [destruct IsReadOnly; reflexivity |].
    split.
    + repeat constructor; destruct IsReadOnly; reflexivity.
    + repeat constructor.
Qed.

Lemma allocateSection_needs_unmapped_group_witness :
  let m := mkManager [newAllocGroup] [] [] EmptyString in
  allocateCodeSection newManager 1000 10 16 = None /\
  exists mc,
    allocateCodeSection m 1000 10 16 = Some (1008, mc) /\
    map CodeAllocs (Unmapped mc) = [[mkAlloc 10 16 1000 0]].
Proof.
  intros m.
  destruct (allocateSection_needs_unmapped_group newManager 1000 10 16 true)
    as [Hempty _]; [reflexivity | lia | lia |].
  destruct (allocateSection_needs_unmapped_group m 1000 10 16 true)
    as [_ Hfull]; [reflexivity | lia | lia |].
  destruct (Hempty eq_refl) as [Hnone _].
  split; [exact Hnone |].
  destruct (Hfull ltac:(discriminate))
    as (older & g & p & mc & gc & md & gd & Hv & Hcode & _ & Hp & _ & _ & _
        & Hmc & Hgc & _).
  exists mc.
  assert (Ho : older = [] /\ g = newAllocGroup).
  { destruct older as [| x [| y t]]; simpl in Hv.
    - inversion Hv. auto.
    - inversion Hv.
    - inversion Hv. }
  destruct Ho as [-> ->].
  split.
  - rewrite Hcode, Hp. reflexivity.
  - rewrite Hmc. cbn [app map]. rewrite Hgc. reflexivity.
Defined.

(* ------------------------------------------------------------------ *)
(** ** Teardown *)

(** The destructor makes one remote call whatever the state and whatever
    the answer, and hands back only lines for errs(). *)
Lemma destructor_log (EPC : ExecutorProcessControl) (SAs : SymbolAddrs)
    (m : Manager) (log : Log) :
  snd (destructor EPC SAs m log)
  = log ++ [mkRemoteCall (Reserve SAs)
              (DeallocateArgs (Instance SAs) (FinalizedAllocs m))].
Proof.
  unfold destructor, callSPSWrapper.
  destruct (respond EPC (List.length log)); reflexivity.
Qed.

(** No member function ever adds to FinalizedAllocs. *)
Lemma FinalizedAllocs_unchanged (EPC : ExecutorProcessControl)
    (SAs : SymbolAddrs) (m : Manager) :
  (forall log a b c d e f,
     FinalizedAllocs (fst (reserveAllocationSpace EPC SAs m log a b c d e f))
     = FinalizedAllocs m) /\
  (forall LA Sz, FinalizedAllocs (registerEHFrames m LA Sz)
                 = FinalizedAllocs m) /\
  FinalizedAllocs (fst (notifyObjectLoaded m)) = FinalizedAllocs m /\
  (forall Out log,
     FinalizedAllocs (managerAfter (finalizeMemory EPC SAs m Out log))
     = FinalizedAllocs m) /\
  (forall Buf Sz Al p m',
     allocateCodeSection m Buf Sz Al = Some (p, m') ->
     FinalizedAllocs m' = FinalizedAllocs m) /\
  (forall Buf Sz Al ro p m',
     allocateDataSection m Buf Sz Al ro = Some (p, m') ->
     FinalizedAllocs m' = FinalizedAllocs m).
Proof.
  repeat split.
  - intros log a b c d e f. unfold reserveAllocationSpace, callSPSWrapper.
    destruct (negb (empty (ErrMsg m))); [reflexivity |].
    destruct (negb (isPowerOf2_32 b) || (b >? getPageSize EPC));
      [reflexivity |].
    destruct (negb (isPowerOf2_32 d) || (d >? getPageSize EPC));
      [reflexivity |].
    destruct (negb (isPowerOf2_32 f) || (f >? getPageSize EPC));
      [reflexivity |].
    destruct (respond EPC (List.length log)); reflexivity.
  - intros LA Sz. unfold registerEHFrames.
    destruct (negb (empty (ErrMsg m))); [reflexivity |].
    destruct (registerLoop LA Sz (rev (Unfinalized m))); reflexivity.
  - unfold notifyObjectLoaded.
    destruct (fold_left _ (Unmapped m) (Unfinalized m, [])). reflexivity.
  - intros Out log. unfold finalizeMemory.
    destruct (nonNull Out && negb (empty (ErrMsg m))); [reflexivity |].
    destruct (finalizeLoop_manager EPC SAs (Unfinalized m)
                (setUnfinalized m []) Out log) as (_ & _ & ->).
    reflexivity.
  - intros Buf Sz Al p m'. unfold allocateCodeSection.
    destruct (back (Unmapped m)); [| discriminate].
    intros H. inversion H. reflexivity.
  - intros Buf Sz Al ro p m'. unfold allocateDataSection.
    destruct (back (Unmapped m)); [| discriminate].
    intros H. inversion H. reflexivity.
Qed.

(** C1. One object goes through its whole life: reservation (the executor
    answers with base 65536), one code section, notifyObjectLoaded, a
    successful finalizeMemory.  The destructor then makes its one remote
    call to address 1, the reserve entry point, not to address 3, the
    deallocate entry point, and the list it passes is empty although the
    group at base 65536 was finalized. *)
Theorem destructor_misdirected_deallocate :
  let '(m1, log1) :=
    reserveAllocationSpace exampleEPC exampleSAs newManager [] 10 1 0 1 0 1 in
  match allocateCodeSection m1 1000 10 1 with
  | None => False
  | Some (_, m2) =>
      let '(m3, _) := notifyObjectLoaded m2 in
      let r := finalizeMemory exampleEPC exampleSAs m3 (Some EmptyString)
                 log1 in
      returned r = false /\
      map (fun g => Start (RemoteCode g)) (Unfinalized m3) = [65536] /\
      logAfter r
      = [mkRemoteCall 1 (ReserveArgs 100 4096);
         finalizeCall exampleSAs
           (mkAllocGroup (mkExecutorAddrRange 65536 69632)
              (mkExecutorAddrRange 69632 69632)
              (mkExecutorAddrRange 69632 69632)
              [] [mkAlloc 10 1 1000 65536] [] [])] /\
      snd (destructor exampleEPC exampleSAs (managerAfter r) (logAfter r))
      = logAfter r ++ [mkRemoteCall 1 (DeallocateArgs 100 [])] /\
      Reserve exampleSAs = 1 /\ Deallocate exampleSAs = 3
  end.
Proof.
  vm_compute. repeat split; reflexivity.
Qed.

(* ------------------------------------------------------------------ *)
(** ** The scenario of the design document *)

(** A code section of 10 bytes (alignment 1) and a read-only section of 4
    bytes (alignment 4) in one group, page size 4096: 8192 bytes are
    requested, the code range is [base, base + 4096), the read-only range
    [base + 4096, base + 8192); the code Alloc is mapped at the base, and
    the code segment of the finalize request has 10 bytes copied to offset
    0 of a 10-byte buffer. *)
Example scenario_one_object :
  let '(m1, log1) :=
    reserveAllocationSpace exampleEPC exampleSAs newManager [] 10 1 4 4 0 1 in
  match allocateCodeSection m1 1000 10 1 with
  | None => False
  | Some (_, m2) =>
      match allocateDataSection m2 2000 4 4 true with
      | None => False
      | Some (_, m3) =>
          let '(m4, mappings) := notifyObjectLoaded m3 in
          let r := finalizeMemory exampleEPC exampleSAs m4
                     (Some EmptyString) log1 in
          log1 = [mkRemoteCall 1 (ReserveArgs 100 8192)] /\
          mappings = [(1000, 65536); (2000, 69632)] /\
          returned r = false /\
          Unfinalized m4 = [scenarioGroup] /\
          logAfter r = log1 ++ [finalizeCall exampleSAs scenarioGroup] /\
          map Content (Segments (makeFinalizeRequest exampleSAs scenarioGroup))
          = [mkSegContent 10 [mkCopy 0 1000 10] 10;
             mkSegContent 4 [mkCopy 0 2000 4] 4;
             mkSegContent 0 [] 0]
      end
  end.
Proof.
  vm_compute. repeat split; reflexivity.
Qed.

(* ------------------------------------------------------------------ *)
(** ** More on finalize *)

Section FinalizeOutcomes.

Variable EPC : ExecutorProcessControl.
Variable SAs : SymbolAddrs.

Lemma finalizeLoop_all_succeed (Allocs : list AllocGroup) :
  forall m Out log,
  callsSucceed EPC log Allocs ->
  finalizeLoop EPC SAs Allocs m Out log
  = (false, Out, m, log ++ map (finalizeCall SAs) Allocs).
Proof.
  induction Allocs as [| g rest IH]; intros m Out log Hok.
  - simpl. rewrite app_nil_r. reflexivity.
  - rewrite finalizeLoop_step.
    rewrite <- (Nat.add_0_r (List.length log)).
    rewrite (Hok 0%nat) by (simpl; lia).
    rewrite IH.
    + cbn [map]. rewrite <- app_assoc. reflexivity.
    + intros i Hi. rewrite length_app. cbn [List.length].
      replace (List.length log + 1 + i)%nat
        with (List.length log + S i)%nat by lia.
      apply Hok. simpl. lia.
Qed.

Lemma finalizeLoop_success_calls (Allocs : list AllocGroup) :
  forall m Out log,
  returned (finalizeLoop EPC SAs Allocs m Out log) = false ->
  callsSucceed EPC log Allocs.
Proof.
  induction Allocs as [| g rest IH]; intros m Out log Hret i Hi.
  - simpl in Hi. lia.
  - rewrite finalizeLoop_step in Hret.
    destruct (outcomeError (respond EPC (List.length log))) as [Err |] eqn:E.
    + discriminate Hret.
    + destruct i as [| i].
      * rewrite Nat.add_0_r. exact E.
      * specialize (IH _ _ _ Hret i). rewrite length_app in IH.
        cbn [List.length] in IH.
        replace (List.length log + S i)%nat
          with (List.length log + 1 + i)%nat by lia.
        apply IH. simpl in Hi. lia.
Qed.

(** finalizeMemory reports success exactly when it does not return early
    with the sticky error and the finalize call of every pending group
    succeeds.  It then leaves the caller's string and the sticky error as
    they were, has emptied Unfinalized, and has made one call per group in
    queue order; with nothing pending it makes no call. *)
Theorem finalize_succeeds_iff (m : Manager) (Out : option string)
    (log : Log) :
  let r := finalizeMemory EPC SAs m Out log in
  (returned r = false <->
   nonNull Out && negb (empty (ErrMsg m)) = false /\
   callsSucceed EPC log (Unfinalized m)) /\
  (returned r = false ->
   reported r = Out /\
   managerAfter r = setUnfinalized m [] /\
   logAfter r = log ++ map (finalizeCall SAs) (Unfinalized m)).
Proof.
  intros r. subst r. unfold finalizeMemory.
  destruct (nonNull Out && negb (empty (ErrMsg m))) eqn:Hb.
  - split.
    + split; [intros H; discriminate H | intros [H _]; discriminate H].
    + intros H. discriminate H.
  - split.
    + split.
      * intros H. split; [reflexivity |].
        apply (finalizeLoop_success_calls _ _ _ _ H).
      * intros [_ Hok]. rewrite (finalizeLoop_all_succeed _ _ _ _ Hok).
        reflexivity.
    + intros H.
      pose proof (finalizeLoop_success_calls _ _ _ _ H) as Hok.
      rewrite (finalizeLoop_all_succeed _ _ _ _ Hok). auto.
Qed.


End FinalizeOutcomes.


(* ------------------------------------------------------------------ *)
(** ** More on address mapping and aggregation *)

(** mapAllocsToRemoteAddrs keeps every section as it was staged (same
    number and order, same size, alignment and buffer) and only sets the
    remote address; it reports one mapping per section, in order, from the
    aligned buffer pointer of the section to the remote address it stores
    in the Alloc.  This holds whatever the start address. *)
Theorem mapAllocs_reports_stored_addresses (Allocs : list Alloc)
    (NextAddr : ExecutorAddr) :
  let r := mapAllocsToRemoteAddrs Allocs NextAddr in
  map Size (fst r) = map Size Allocs /\
  map Align (fst r) = map Align Allocs /\
  map Contents (fst r) = map Contents Allocs /\
  snd r = map (fun A => (alignAddr (Contents A) (Align A), RemoteAddr A))
              (fst r).
Proof.
  unfold mapAllocsToRemoteAddrs. revert NextAddr.
  induction Allocs as [| A rest IH]; intros N.
  - simpl. auto.
  - rewrite mapAllocsLoop_cons. cbv zeta.
    remember (if alignTo N (Align A) =? 0
              then alignTo N (Align A)
              else wrap64 (alignTo N (Align A) + Size A)) as N2 eqn:E.
    clear E. destruct (IH N2) as (I1 & I2 & I3 & I4).
    destruct (mapAllocsLoop rest N2) as [[mapped maps] final].
    cbn [fst snd] in *. cbn [map Size Align Contents RemoteAddr
      setRemoteAddr]. rewrite I1, I2, I3, I4. auto.
Qed.

Lemma mapAllocsLoop_placed (Allocs : list Alloc) :
  forall N, 0 < N -> layoutFits N Allocs ->
  N <= snd (mapAllocsLoop Allocs N) /\
  Forall (fun B => N <= RemoteAddr B /\
                   RemoteAddr B + Size B <= snd (mapAllocsLoop Allocs N) /\
                   (Align B | RemoteAddr B))
         (fst (fst (mapAllocsLoop Allocs N))) /\
  StronglySorted endsBefore (fst (fst (mapAllocsLoop Allocs N))).
Proof.
  induction Allocs as [| A rest IH]; intros N HN Hfit.
  - simpl. split; [lia |]. split; constructor.
  - destruct Hfit as (Ha & Hs & H1 & H2 & Hrest).
    rewrite mapAllocsLoop_cons.
    pose proof (roundUp_bounds N (Align A) Ha) as Hb.
    rewrite (alignTo_roundUp N (Align A)) by lia.
    cbv zeta.
    destruct (Z.eqb_spec (roundUp N (Align A)) 0) as [E | _]; [lia |].
    rewrite (wrap64_small (roundUp N (Align A) + Size A)) by lia.
    destruct (IH (roundUp N (Align A) + Size A)) as (I1 & I2 & I3);
      [lia | exact Hrest |].
    cbn [fst snd]. split; [lia |]. split.
    + constructor.
      * cbn [RemoteAddr Size Align setRemoteAddr].
        split; [lia |]. split; [lia | apply roundUp_multiple].
      * eapply Forall_impl; [| exact I2].
        intros B (B1 & B2 & B3). split; [lia |]. split; assumption.
    + constructor; [exact I3 |].
      eapply Forall_impl; [| exact I2].
      intros B (B1 & _ & _). unfold endsBefore.
      cbn [RemoteAddr Size setRemoteAddr]. exact B1.
Qed.

(** From a non-null start and without wrap-around, the sections of one
    class are mapped, in staging order, to disjoint stretches of the
    executor's address space: every section starts at or after the range
    start, on a multiple of its alignment, and ends before every later
    section begins. *)
Theorem mapped_sections_aligned_and_disjoint (Allocs : list Alloc)
    (RangeStart : ExecutorAddr) :
  0 < RangeStart -> layoutFits RangeStart Allocs ->
  let mapped := fst (mapAllocsToRemoteAddrs Allocs RangeStart) in
  Forall (fun B => RangeStart <= RemoteAddr B /\ (Align B | RemoteAddr B))
         mapped /\
  StronglySorted endsBefore mapped.
Proof.
  intros Hpos Hfit mapped. subst mapped. unfold mapAllocsToRemoteAddrs.
  destruct (mapAllocsLoop_placed Allocs RangeStart Hpos Hfit)
    as (_ & HF & HS).
  split; [| exact HS].
  eapply Forall_impl; [| exact HF].
  intros B (B1 & _ & B3). split; assumption.
Qed.

Lemma mapped_sections_aligned_and_disjoint_witness :
  let mapped := fst (mapAllocsToRemoteAddrs
                       [mkAlloc 10 1 1000 0; mkAlloc 6 16 3000 0] 65536) in
  map RemoteAddr mapped = [65536; 65552] /\
  StronglySorted endsBefore mapped.
Proof.
  intros mapped.
  destruct (mapped_sections_aligned_and_disjoint
              [mkAlloc 10 1 1000 0; mkAlloc 6 16 3000 0] 65536)
    as (_ & HS).
  - reflexivity.
  - unfold layoutFits, roundUp. simpl. lia.
  - split; [reflexivity | exact HS].
Defined.

Lemma copyLoop_placed (Allocs : list Alloc) :
  forall O, 0 <= O -> layoutFits O Allocs ->
  O <= snd (copyLoop Allocs O) /\
  Forall (fun c => O <= DstOffset c /\
                   DstOffset c + Len c <= snd (copyLoop Allocs O))
         (fst (copyLoop Allocs O)) /\
  StronglySorted copyEndsBefore (fst (copyLoop Allocs O)).
Proof.
  induction Allocs as [| A rest IH]; intros O HO Hfit.
  - simpl. split; [lia |]. split; constructor.
  - destruct Hfit as (Ha & Hs & H1 & H2 & Hrest).
    rewrite copyLoop_cons.
    pose proof (roundUp_bounds O (Align A) Ha) as Hb.
    rewrite (alignTo_roundUp O (Align A)) by lia.
    cbv zeta.
    rewrite (wrap64_small (roundUp O (Align A) + Size A)) by lia.
    destruct (IH (roundUp O (Align A) + Size A)) as (I1 & I2 & I3);
      [lia | exact Hrest |].
    cbn [fst snd]. split; [lia |]. split.
    + constructor.
      * cbn [DstOffset Len]. lia.
      * eapply Forall_impl; [| exact I2].
        intros c (C1 & C2). split; [lia | exact C2].
    + constructor; [exact I3 |].
      eapply Forall_impl; [| exact I2].
      intros c (C1 & _). unfold copyEndsBefore. cbn [DstOffset Len].
      exact C1.
Qed.

(** Without wrap-around, every memcpy of finalizeMemory stays inside the
    aggregate buffer it allocated for the segment, the copies do not
    overlap, there is one per section with the section's size, and the
    content sent is the whole buffer. *)
Theorem finalize_copies_within_buffer (P : Z) (R : ExecutorAddrRange)
    (Secs : list Alloc) :
  layoutFits 0 Secs ->
  let Seg := makeSegment P R Secs in
  Forall (fun c => 0 <= DstOffset c /\
                   DstOffset c + Len c <= BufferSize (Content Seg))
         (Copies (Content Seg)) /\
  StronglySorted copyEndsBefore (Copies (Content Seg)) /\
  map Len (Copies (Content Seg)) = map Size Secs /\
  ContentSize (Content Seg) = BufferSize (Content Seg).
Proof.
  intros Hfit Seg.
  assert (HB : BufferSize (Content Seg) = snd (copyLoop Secs 0)).
  { subst Seg. unfold makeSegment.
    rewrite segSizeLoop_copyLoop.
    destruct (copyLoop Secs 0) as [cs fin]. reflexivity. }
  destruct (makeSegment_fields P R Secs) as (_ & _ & _ & HC & HZ).
  fold Seg in HC, HZ. rewrite HB, HC, HZ.
  destruct (copyLoop_placed Secs 0 ltac:(lia) Hfit) as (_ & HF & HS).
  split; [exact HF |]. split; [exact HS |]. split; [| reflexivity].
  clear. generalize 0 as O.
  induction Secs as [| A rest IH]; intros O.
  - reflexivity.
  - rewrite copyLoop_cons. cbv zeta. cbn [fst map Len]. rewrite IH.
    reflexivity.
Qed.

Lemma finalize_copies_within_buffer_witness :
  let Seg := makeSegment WPF_Read (mkExecutorAddrRange 65536 69632)
               [mkAlloc 10 1 1000 65536; mkAlloc 6 16 3000 65552] in
  map DstOffset (Copies (Content Seg)) = [0; 16] /\
  BufferSize (Content Seg) = 22 /\
  Forall (fun c => 0 <= DstOffset c /\
                   DstOffset c + Len c <= BufferSize (Content Seg))
         (Copies (Content Seg)).
Proof.
  intros Seg.
  destruct (finalize_copies_within_buffer WPF_Read
              (mkExecutorAddrRange 65536 69632)
              [mkAlloc 10 1 1000 65536; mkAlloc 6 16 3000 65552])
    as (HF & _).
  - unfold layoutFits, roundUp. simpl. lia.
  - split; [reflexivity |]. split; [reflexivity | exact HF].
Defined.

Lemma mappings_match_copies (s : Z) (Allocs : list Alloc) :
  0 < s ->
  Forall (fun A => (Align A | s)) Allocs ->
  forall v, 0 <= v -> layoutFits (s + v) Allocs ->
  snd (fst (mapAllocsLoop Allocs (s + v)))
  = map (fun c => (Src c, s + DstOffset c)) (fst (copyLoop Allocs v)).
Proof.
  intros Hs. induction 1 as [| A rest HA _ IH]; intros v Hv Hfit.
  - reflexivity.
  - destruct Hfit as (Ha & Hsz & H1 & H2 & Hrest).
    rewrite mapAllocsLoop_cons, copyLoop_cons.
    pose proof (roundUp_bounds v (Align A) Ha) as Hb.
    rewrite (roundUp_shift s v (Align A) Ha HA) in *.
    rewrite (alignTo_roundUp (s + v) (Align A)) by lia.
    rewrite (alignTo_roundUp v (Align A)) by lia.
    rewrite (roundUp_shift s v (Align A) Ha HA).
    cbv zeta.
    destruct (Z.eqb_spec (s + roundUp v (Align A)) 0) as [E | _]; [lia |].
    rewrite (wrap64_small (s + roundUp v (Align A) + Size A)) by lia.
    rewrite (wrap64_small (roundUp v (Align A) + Size A)) by lia.
    cbn [fst snd map Src DstOffset].
    replace (s + roundUp v (Align A) + Size A)
      with (s + (roundUp v (Align A) + Size A)) in * by lia.
    rewrite (IH (roundUp v (Align A) + Size A)) by (lia || exact Hrest).
    reflexivity.
Qed.

(** What the loader is told and what the executor receives agree.  For a
    class whose range start is non-null and a multiple of every alignment
    of the class, without wrap-around: the k-th mapping reported by
    notifyObjectLoaded and the k-th copy made by finalizeMemory have the
    same local source, and the reported remote address is the address of
    the segment plus the offset of the copy in its content. *)
Theorem loader_and_executor_agree (P : Z) (R : ExecutorAddrRange)
    (Allocs : list Alloc) :
  classFits R Allocs ->
  let r := mapAllocsToRemoteAddrs Allocs (Start R) in
  let Seg := makeSegment P R (fst r) in
  snd r = map (fun c => (Src c, SegAddr Seg + DstOffset c))
              (Copies (Content Seg)).
Proof.
  intros (Hpos & Hdiv & Hfit) r Seg.
  destruct (makeSegment_fields P R (fst r)) as (_ & HA & _ & HC & _).
  fold Seg in HA, HC. rewrite HA, HC.
  subst r. unfold mapAllocsToRemoteAddrs. rewrite copyLoop_mapped.
  cbn [snd fst].
  pose proof (mappings_match_copies (Start R) Allocs Hpos Hdiv 0
                ltac:(lia)) as H.
  rewrite Z.add_0_r in H. apply H. exact Hfit.
Qed.

Lemma loader_and_executor_agree_witness :
  let R := mkExecutorAddrRange 65536 69632 in
  let r := mapAllocsToRemoteAddrs
             [mkAlloc 10 1 1000 0; mkAlloc 6 16 3000 0] 65536 in
  snd r = [(1000, 65536); (3008, 65552)] /\
  snd r = map (fun c => (Src c, 65536 + DstOffset c))
              (Copies (Content (makeSegment WPF_Read R (fst r)))).
Proof.
  intros R r. split; [reflexivity |].
  apply (loader_and_executor_agree WPF_Read R
           [mkAlloc 10 1 1000 0; mkAlloc 6 16 3000 0]).
  unfold classFits. cbn [Start R]. split; [reflexivity |]. split.
  - repeat constructor; cbn [Align].
    + exists 65536. reflexivity.
    + exists 4096. reflexivity.
  - unfold layoutFits, roundUp. simpl. lia.
Defined.

(* ------------------------------------------------------------------ *)
(** ** More on reservation *)

Lemma reserve_call_failure_witness :
  let r := reserveAllocationSpace failFirstEPC exampleSAs newManager []
             10 1 4 4 0 1 in
  ErrMsg (fst r) = "finalize failed"%string /\
  Unmapped (fst r) = [] /\
  snd r = [mkRemoteCall 1 (ReserveArgs 100 8192)].
Proof.
  intros r. subst r.
  rewrite (reserve_call_failure failFirstEPC exampleSAs newManager []
             10 1 4 4 0 1 "finalize failed"%string);
    try reflexivity.
  repeat split; reflexivity.
Defined.

(** When the executor answers a reservation with a base on a page
    boundary, the three ranges of the pushed group all start on page
    boundaries, and so does the end of the last one. *)
Theorem reserve_ranges_page_aligned (EPC : ExecutorProcessControl)
    (SAs : SymbolAddrs) (m : Manager) (log : Log)
    (CodeSize CodeAlign RODataSize RODataAlign RWDataSize RWDataAlign : Z)
    (A : ExecutorAddr) :
  empty (ErrMsg m) = true ->
  invalidAlignment EPC CodeAlign = false ->
  invalidAlignment EPC RODataAlign = false ->
  invalidAlignment EPC RWDataAlign = false ->
  respond EPC (List.length log) = RemoteValue A ->
  reservationFits (getPageSize EPC) A CodeSize RODataSize RWDataSize ->
  (getPageSize EPC | A) ->
  exists g,
    Unmapped (fst (reserveAllocationSpace EPC SAs m log CodeSize CodeAlign
                     RODataSize RODataAlign RWDataSize RWDataAlign))
    = Unmapped m ++ [g] /\
    (getPageSize EPC | Start (RemoteCode g)) /\
    (getPageSize EPC | Start (RemoteROData g)) /\
    (getPageSize EPC | Start (RemoteRWData g)) /\
    (getPageSize EPC | End (RemoteRWData g)).
Proof.
  intros Hem Vc Vro Vrw Hresp Hfit Hdiv.
  assert (HP : 0 < getPageSize EPC)
    by (apply invalidAlignment_false in Vc; lia).
  rewrite (reserve_success EPC SAs m log CodeSize CodeAlign RODataSize
             RODataAlign RWDataSize RWDataAlign A Hem Vc Vro Vrw Hresp).
  exists (reservedGroup EPC A CodeSize RODataSize RWDataSize).
  split; [reflexivity |].
  destruct (reservedGroup_ranges EPC A CodeSize RODataSize RWDataSize HP Hfit)
    as (-> & -> & ->).
  cbn [Start End].
  pose proof (roundUp_multiple CodeSize (getPageSize EPC)) as Dc.
  pose proof (roundUp_multiple RODataSize (getPageSize EPC)) as Dro.
  pose proof (roundUp_multiple RWDataSize (getPageSize EPC)) as Drw.
  repeat split; repeat apply Z.divide_add_r; assumption.
Qed.

Lemma reserve_ranges_page_aligned_witness :
  exists g,
    Unmapped (fst (reserveAllocationSpace exampleEPC exampleSAs newManager []
                     10 1 4 4 0 1)) = [g] /\
    (4096 | Start (RemoteROData g)).
Proof.
  destruct (reserve_ranges_page_aligned exampleEPC exampleSAs newManager []
              10 1 4 4 0 1 65536)
    as (g & Hg & _ & Hro & _); try reflexivity.
  - unfold reservationFits, roundUp. simpl. lia.
  - exists 16. reflexivity.
  - exists g. split; [exact Hg | exact Hro].
Defined.

(* ------------------------------------------------------------------ *)
(** ** More on notifyObjectLoaded and frame registration *)

Lemma mapGroup_keeps_ranges (g : AllocGroup) :
  RemoteCode (fst (mapGroup g)) = RemoteCode g /\
  RemoteROData (fst (mapGroup g)) = RemoteROData g /\
  RemoteRWData (fst (mapGroup g)) = RemoteRWData g /\
  UnfinalizedEHFrames (fst (mapGroup g)) = UnfinalizedEHFrames g.
Proof.
  unfold mapGroup.
  destruct (mapAllocsToRemoteAddrs (CodeAllocs g) _) as [C mc].
  destruct (mapAllocsToRemoteAddrs (RODataAllocs g) _) as [RO mro].
  destruct (mapAllocsToRemoteAddrs (RWDataAllocs g) _) as [RW mrw].
  simpl. auto.
Qed.

Lemma groupContains_mapGroup (g : AllocGroup) (LA : ExecutorAddr) :
  groupContains (fst (mapGroup g)) LA = groupContains g LA.
Proof.
  unfold groupContains.
  destruct (mapGroup_keeps_ranges g) as (-> & -> & -> & _). reflexivity.
Qed.

Lemma notifyObjectLoaded_effect (m : Manager) :
  let r := notifyObjectLoaded m in
  Unmapped (fst r) = [] /\
  Unfinalized (fst r)
  = Unfinalized m ++ map (fun g => fst (mapGroup g)) (Unmapped m) /\
  snd r = List.concat (map (fun g => snd (mapGroup g)) (Unmapped m)) /\
  ErrMsg (fst r) = ErrMsg m /\
  notifyObjectLoaded (fst r) = (fst r, []).
Proof.
  intros r. subst r.
  destruct (notifyObjectLoaded_moves_groups m) as (H1 & H2).
  split; [exact H1 |]. split; [exact H2 |].
  unfold notifyObjectLoaded.
  assert (H : forall gs acc,
            snd (fold_left
                   (fun acc ObjAllocs =>
                      let '(g, ms) := mapGroup ObjAllocs in
                      (fst acc ++ [g], snd acc ++ ms)) gs acc)
            = snd acc ++ List.concat (map (fun g => snd (mapGroup g)) gs)).
  { induction gs as [| g gs IH]; intros acc.
    - simpl. rewrite app_nil_r. reflexivity.
    - cbn [fold_left map List.concat]. rewrite IH.
      destruct (mapGroup g) as [g' ms]. cbn [snd].
      rewrite <- app_assoc. reflexivity. }
  specialize (H (Unmapped m) (Unfinalized m, [])).
  destruct (fold_left _ (Unmapped m) (Unfinalized m, [])) as [Unf maps].
  cbn [fst snd] in *. split; [exact H |]. split; reflexivity.
Qed.

(** notifyObjectLoaded moves every unmapped group, mapped and with its
    ranges and pending frames unchanged, behind the groups already in
    Unfinalized, in order, and leaves Unmapped empty; it reports the
    mappings of the groups in that order and does not look at the sticky
    error.  A second call right after the first changes nothing and
    reports no mapping. *)
Theorem notifyObjectLoaded_moves_once (m : Manager) :
  let r := notifyObjectLoaded m in
  Unmapped (fst r) = [] /\
  Unfinalized (fst r)
  = Unfinalized m ++ map (fun g => fst (mapGroup g)) (Unmapped m) /\
  Forall2 (fun g g' =>
             RemoteCode g' = RemoteCode g /\
             RemoteROData g' = RemoteROData g /\
             RemoteRWData g' = RemoteRWData g /\
             UnfinalizedEHFrames g' = UnfinalizedEHFrames g)
          (Unmapped m) (map (fun g => fst (mapGroup g)) (Unmapped m)) /\
  snd r = List.concat (map (fun g => snd (mapGroup g)) (Unmapped m)) /\
  ErrMsg (fst r) = ErrMsg m /\
  notifyObjectLoaded (fst r) = (fst r, []).
Proof.
  intros r. subst r.
  destruct (notifyObjectLoaded_effect m) as (H1 & H2 & H3 & H4 & H5).
  split; [exact H1 |]. split; [exact H2 |].
  split; [| split; [exact H3 | split; [exact H4 | exact H5]]].
  clear. induction (Unmapped m) as [| g gs IH]; constructor.
  - apply mapGroup_keeps_ranges.
  - exact IH.
Qed.

Lemma registerLoop_at (LA : ExecutorAddr) (Sz : Z)
    (pre : list AllocGroup) (g : AllocGroup) (post : list AllocGroup) :
  Forall (fun h => groupContains h LA = false) pre ->
  groupContains g LA = true ->
  registerLoop LA Sz (pre ++ g :: post)
  = Some (pre ++ pushEHFrame g (mkEHFrame LA Sz) :: post).
Proof.
  induction 1 as [| h pre Hh _ IH]; intros Hg.
  - simpl. rewrite Hg. reflexivity.
  - simpl. rewrite Hh, (IH Hg). reflexivity.
Qed.

Lemma registerEHFrames_at (m : Manager) (LA : ExecutorAddr) (Sz : Z)
    (older : list AllocGroup) (g : AllocGroup) (newer : list AllocGroup) :
  empty (ErrMsg m) = true ->
  Unfinalized m = older ++ g :: newer ->
  groupContains g LA = true ->
  Forall (fun h => groupContains h LA = false) newer ->
  registerEHFrames m LA Sz
  = setUnfinalized m (older ++ pushEHFrame g (mkEHFrame LA Sz) :: newer).
Proof.
  intros Hem HU Hg Hnew. unfold registerEHFrames.
  rewrite Hem, HU. cbn [negb].
  rewrite rev_app_distr. cbn [rev]. rewrite <- app_assoc. cbn [app].
  rewrite (registerLoop_at LA Sz (rev newer) g (rev older)
             (Forall_rev Hnew) Hg).
  rewrite rev_app_distr. cbn [rev]. rewrite !rev_involutive.
  rewrite <- app_assoc. reflexivity.
Qed.

(** A frame whose address lies in a group that is reserved but not yet
    moved by notifyObjectLoaded, and in no unfinalized group, is refused
    with the consistency error; the same registration made after
    notifyObjectLoaded is accepted and the frame is attached to a group
    that contains the address. *)
Theorem frames_register_only_after_notify (m : Manager)
    (LA : ExecutorAddr) (Sz : Z) :
  empty (ErrMsg m) = true ->
  existsb (fun g => groupContains g LA) (Unfinalized m) = false ->
  existsb (fun g => groupContains g LA) (Unmapped m) = true ->
  ErrMsg (registerEHFrames m LA Sz) = ehFrameOutside /\
  Unfinalized (registerEHFrames m LA Sz) = Unfinalized m /\
  let m' := fst (notifyObjectLoaded m) in
  ErrMsg (registerEHFrames m' LA Sz) = EmptyString /\
  exists older g newer,
    Unfinalized m' = older ++ g :: newer /\
    groupContains g LA = true /\
    Unfinalized (registerEHFrames m' LA Sz)
    = older ++ pushEHFrame g (mkEHFrame LA Sz) :: newer.
Proof.
  intros Hem Hunf Hunm. split; [| split].
  - unfold registerEHFrames. rewrite Hem. cbn [negb].
    rewrite <- existsb_rev in Hunf.
    rewrite (registerLoop_not_found LA Sz _ Hunf). reflexivity.
  - unfold registerEHFrames. rewrite Hem. cbn [negb].
    rewrite <- existsb_rev in Hunf.
    rewrite (registerLoop_not_found LA Sz _ Hunf). reflexivity.
  - intros m'.
    destruct (notifyObjectLoaded_effect m) as (_ & HU & _ & HE & _).
    fold m' in HU, HE.
    assert (Hem' : empty (ErrMsg m') = true) by (rewrite HE; exact Hem).
    assert (Hex : existsb (fun g => groupContains g LA)
                    (rev (Unfinalized m')) = true).
    { rewrite existsb_rev, HU, existsb_app. apply orb_true_iff. right.
      clear - Hunm. induction (Unmapped m) as [| g gs IH].
      - discriminate Hunm.
      - cbn [map existsb] in *. rewrite groupContains_mapGroup.
        apply orb_true_iff in Hunm. apply orb_true_iff.
        destruct Hunm as [H | H]; [left; exact H | right; exact (IH H)]. }
    destruct (registerLoop_found LA Sz _ Hex)
      as (pre & g & post & Hrev & Hpre & Hg & _).
    assert (HU' : Unfinalized m' = rev post ++ g :: rev pre).
    { rewrite <- (rev_involutive (Unfinalized m')), Hrev, rev_app_distr.
      simpl. rewrite <- app_assoc. reflexivity. }
    rewrite (registerEHFrames_at m' LA Sz (rev post) g (rev pre) Hem' HU' Hg
               (Forall_rev Hpre)).
    cbn [ErrMsg Unfinalized setUnfinalized]. split.
    + rewrite HE. destruct (ErrMsg m); [reflexivity | discriminate Hem].
    + exists (rev post), g, (rev pre). auto.
Qed.

Lemma frames_register_only_after_notify_witness :
  let m := mkManager [overAlignedGroup] [] [] EmptyString in
  ErrMsg (registerEHFrames m 4100 24) = ehFrameOutside /\
  ErrMsg (registerEHFrames (fst (notifyObjectLoaded m)) 4100 24)
  = EmptyString.
Proof.
  intros m.
  destruct (frames_register_only_after_notify m 4100 24)
    as (H1 & _ & H3); try reflexivity.
  destruct H3 as (H3 & _). split; [exact H1 | exact H3].
Defined.

Section RegisterThenFinalize.

Variable EPC : ExecutorProcessControl.
Variable SAs : SymbolAddrs.

(** A registered frame reaches the executor with its group.  When a frame
    is registered into group g and every finalize call then succeeds,
    finalizeMemory makes the same calls as without the frame, except that
    the request of g carries one more action pair, at the end, for that
    frame; the segments of g and the requests of the other groups are
    unchanged. *)
Theorem registered_frame_is_finalized (m : Manager) (LA : ExecutorAddr)
    (Sz : Z) (Out : option string) (log : Log)
    (older : list AllocGroup) (g : AllocGroup) (newer : list AllocGroup) :
  empty (ErrMsg m) = true ->
  Unfinalized m = older ++ g :: newer ->
  groupContains g LA = true ->
  Forall (fun h => groupContains h LA = false) newer ->
  callsSucceed EPC log (Unfinalized m) ->
  let r := finalizeMemory EPC SAs (registerEHFrames m LA Sz) Out log in
  returned r = false /\
  logAfter r
  = log ++ map (finalizeCall SAs) older
    ++ [mkRemoteCall (Finalize SAs)
          (FinalizeArgs (Instance SAs)
             {| Segments := Segments (makeFinalizeRequest SAs g);
                Actions := Actions (makeFinalizeRequest SAs g)
                           ++ [frameAction SAs (mkEHFrame LA Sz)] |})]
    ++ map (finalizeCall SAs) newer.
Proof.
  intros Hem HU Hg Hnew Hok r. subst r.
  rewrite (registerEHFrames_at m LA Sz older g newer Hem HU Hg Hnew).
  unfold finalizeMemory. cbn [ErrMsg setUnfinalized Unfinalized].
  rewrite Hem. cbn [negb]. rewrite andb_false_r.
  rewrite finalizeLoop_all_succeed.
  - unfold returned, logAfter. cbn [fst snd]. split; [reflexivity |].
    rewrite map_app. cbn [map]. f_equal. f_equal.
    unfold finalizeCall at 1. unfold makeFinalizeRequest.
    cbn [UnfinalizedEHFrames pushEHFrame RemoteAddrs SegSections RemoteCode
         RemoteROData RemoteRWData CodeAllocs RODataAllocs RWDataAllocs
         Segments Actions].
    rewrite map_app. reflexivity.
  - intros i Hi. apply Hok. rewrite HU.
    rewrite length_app in *. cbn [List.length] in *. exact Hi.
Qed.

End RegisterThenFinalize.

Lemma registered_frame_is_finalized_witness :
  let m := mkManager [] [exampleGroup1; exampleGroup2] [] EmptyString in
  let r := finalizeMemory exampleEPC exampleSAs
             (registerEHFrames m 4100 8) None [] in
  returned r = false /\
  exists c1 c2 FR,
    logAfter r = [c1; c2] /\
    Args c1 = FinalizeArgs 100 FR /\
    Actions FR = [frameAction exampleSAs (mkEHFrame 4100 8)].
Proof.
  intros m r.
  destruct (registered_frame_is_finalized exampleEPC exampleSAs m 4100 8
              None [] [] exampleGroup1 [exampleGroup2])
    as (H1 & H2).
  - reflexivity.
  - reflexivity.
  - reflexivity.
  - repeat constructor.
  - intros i Hi. simpl in Hi.
    destruct i as [| [| i]]; [reflexivity | reflexivity | lia].
  - split; [exact H1 |].
    eexists _, _, _. split; [exact H2 |]. split; reflexivity.
Defined.

(* ------------------------------------------------------------------ *)
(** ** Invariants of call sequences *)

Lemma back_some {A : Type} (v : list A) (x : A) :
  back v = Some x -> exists older, v = older ++ [x].
Proof.
  unfold back. intros H. destruct (rev v) as [| y t] eqn:E; [discriminate |].
  inversion H; subst. exists (rev t).
  rewrite <- (rev_involutive v), E. reflexivity.
Qed.

(** What a section allocation changes: the last unmapped group gets one
    more Alloc in one of its sequences; its ranges and frames, the other
    groups and the rest of the manager stay. *)
Lemma allocateSection_effect (m m' : Manager) (p : Z) :
  (exists Buf Sz Al, allocateCodeSection m Buf Sz Al = Some (p, m')) \/
  (exists Buf Sz Al ro, allocateDataSection m Buf Sz Al ro = Some (p, m')) ->
  ErrMsg m' = ErrMsg m /\
  Unfinalized m' = Unfinalized m /\
  FinalizedAllocs m' = FinalizedAllocs m /\
  exists older g g',
    Unmapped m = older ++ [g] /\ Unmapped m' = older ++ [g'] /\
    RemoteCode g' = RemoteCode g /\ RemoteROData g' = RemoteROData g /\
    RemoteRWData g' = RemoteRWData g /\
    UnfinalizedEHFrames g' = UnfinalizedEHFrames g.
Proof.
  intros [(Buf & Sz & Al & H) | (Buf & Sz & Al & ro & H)].
  - unfold allocateCodeSection in H.
    destruct (back (Unmapped m)) as [g |] eqn:E; [| discriminate].
    destruct (back_some _ _ E) as (older & Hv).
    inversion H; subst m'. clear H. rewrite Hv, setBack_app.
    cbn [ErrMsg Unfinalized FinalizedAllocs Unmapped setUnmapped].
    repeat split. eexists older, g, _. repeat split.
  - unfold allocateDataSection in H.
    destruct (back (Unmapped m)) as [g |] eqn:E; [| discriminate].
    destruct (back_some _ _ E) as (older & Hv).
    inversion H; subst m'. clear H. rewrite Hv, setBack_app.
    cbn [ErrMsg Unfinalized FinalizedAllocs Unmapped setUnmapped].
    repeat split. eexists older, g, _.
    split; [reflexivity |]. split; [reflexivity |].
    destruct ro; repeat split.
Qed.

Section CallSequences.

Variable EPC : ExecutorProcessControl.
Variable SAs : SymbolAddrs.

Lemma doCall_with_error (m m' : Manager) (log log' : Log) (c : MemberCall) :
  empty (ErrMsg m) = false ->
  isFinalizeMemory c = false ->
  doCall EPC SAs (m, log) c = Some (m', log') ->
  ErrMsg m' = ErrMsg m /\ log' = log /\
  map (fun g => (RemoteCode g, RemoteROData g, RemoteRWData g,
                 UnfinalizedEHFrames g))
      (Unfinalized m' ++ Unmapped m')
  = map (fun g => (RemoteCode g, RemoteROData g, RemoteRWData g,
                   UnfinalizedEHFrames g))
        (Unfinalized m ++ Unmapped m).
Proof.
  intros Hem Hc H. destruct c; cbn [doCall isFinalizeMemory] in *.
  - unfold reserveAllocationSpace in H. rewrite Hem in H.
    inversion H; subst. auto.
  - destruct (allocateCodeSection m Buf Sz Alignment) as [[p m2] |] eqn:E;
      [| discriminate].
    inversion H; subst. clear H.
    destruct (allocateSection_effect m m' p) as (H1 & H2 & _ & Hg).
    { left. eauto. }
    destruct Hg as (older & g & g' & Hv & Hv' & R1 & R2 & R3 & R4).
    rewrite H1, H2, Hv, Hv'. split; [reflexivity |]. split; [reflexivity |].
    rewrite !map_app. cbn [map]. rewrite R1, R2, R3, R4. reflexivity.
  - destruct (allocateDataSection m Buf Sz Alignment IsReadOnly)
      as [[p m2] |] eqn:E; [| discriminate].
    inversion H; subst. clear H.
    destruct (allocateSection_effect m m' p) as (H1 & H2 & _ & Hg).
    { right. eauto. }
    destruct Hg as (older & g & g' & Hv & Hv' & R1 & R2 & R3 & R4).
    rewrite H1, H2, Hv, Hv'. split; [reflexivity |]. split; [reflexivity |].
    rewrite !map_app. cbn [map]. rewrite R1, R2, R3, R4. reflexivity.
  - unfold registerEHFrames in H. rewrite Hem in H.
    inversion H; subst. auto.
  - inversion H; subst. auto.
  - inversion H; subst. clear H.
    destruct (notifyObjectLoaded_effect m) as (H1 & H2 & _ & H4 & _).
    rewrite H1, H2, H4. split; [reflexivity |]. split; [reflexivity |].
    rewrite app_nil_r, !map_app, map_map. f_equal.
    apply map_ext. intros g.
    destruct (mapGroup_keeps_ranges g) as (-> & -> & -> & ->). reflexivity.
  - discriminate Hc.
Qed.

(** Once the sticky error is set, no sequence of calls other than
    finalizeMemory changes it or reaches the executor: the error message
    and the log stay as they are, no group is reserved and no frame is
    registered (the groups keep their ranges and pending frames, in
    order); only section staging and address mapping still take place. *)
Theorem sticky_error_persists (cs : list MemberCall) :
  forall m log m' log',
  empty (ErrMsg m) = false ->
  forallb (fun c => negb (isFinalizeMemory c)) cs = true ->
  doCalls EPC SAs (m, log) cs = Some (m', log') ->
  ErrMsg m' = ErrMsg m /\ log' = log /\
  map (fun g => (RemoteCode g, RemoteROData g, RemoteRWData g,
                 UnfinalizedEHFrames g))
      (Unfinalized m' ++ Unmapped m')
  = map (fun g => (RemoteCode g, RemoteROData g, RemoteRWData g,
                   UnfinalizedEHFrames g))
        (Unfinalized m ++ Unmapped m).
Proof.
  induction cs as [| c rest IH]; intros m log m' log' Hem Hcs H.
  - simpl in H. inversion H; subst. auto.
  - cbn [forallb] in Hcs. apply andb_prop in Hcs. destruct Hcs as [Hc Hrest].
    apply negb_true_iff in Hc.
    cbn [doCalls] in H.
    destruct (doCall EPC SAs (m, log) c) as [[m1 log1] |] eqn:E;
      [| discriminate].
    destruct (doCall_with_error m m1 log log1 c Hem Hc E) as (E1 & E2 & E3).
    subst log1.
    destruct (IH m1 log m' log') as (I1 & I2 & I3);
      [rewrite E1; exact Hem | exact Hrest | exact H |].
    rewrite I1, I3, E1, E3. auto.
Qed.

Lemma doCall_FinalizedAllocs (st st' : Manager * Log) (c : MemberCall) :
  doCall EPC SAs st c = Some st' ->
  FinalizedAllocs (fst st') = FinalizedAllocs (fst st).
Proof.
  destruct st as [m log].
  destruct (FinalizedAllocs_unchanged EPC SAs m)
    as (F1 & F2 & F3 & F4 & F5 & F6).
  intros H. destruct c; cbn [doCall] in H.
  - inversion H; subst. apply F1.
  - destruct (allocateCodeSection m Buf Sz Alignment) as [[p m2] |] eqn:E;
      [| discriminate].
    inversion H; subst. exact (F5 _ _ _ _ _ E).
  - destruct (allocateDataSection m Buf Sz Alignment IsReadOnly)
      as [[p m2] |] eqn:E; [| discriminate].
    inversion H; subst. exact (F6 _ _ _ _ _ _ E).
  - inversion H; subst. apply F2.
  - inversion H; subst. reflexivity.
  - inversion H; subst. apply F3.
  - inversion H; subst. apply F4.
Qed.

(** No sequence of member-function calls ever records a finalized group:
    FinalizedAllocs, the list the destructor hands to the executor, is
    after the sequence what it was before, so it is still empty for a
    manager that started fresh. *)
Theorem calls_never_record_finalized (cs : list MemberCall) :
  forall st st',
  doCalls EPC SAs st cs = Some st' ->
  FinalizedAllocs (fst st') = FinalizedAllocs (fst st).
Proof.
  induction cs as [| c rest IH]; intros st st' H.
  - simpl in H. inversion H; subst. reflexivity.
  - cbn [doCalls] in H.
    destruct (doCall EPC SAs st c) as [st1 |] eqn:E; [| discriminate].
    rewrite (IH _ _ H). exact (doCall_FinalizedAllocs _ _ _ E).
Qed.

Lemma doCall_log (st st' : Manager * Log) (c : MemberCall) :
  doCall EPC SAs st c = Some st' ->
  exists calls,
    snd st' = snd st ++ calls /\ Forall (isManagerCall SAs) calls.
Proof.
  destruct st as [m log]. intros H.
  assert (Hnil : exists calls : list RemoteCall,
            log = log ++ calls /\ Forall (isManagerCall SAs) calls).
  { exists []. rewrite app_nil_r. split; [reflexivity | constructor]. }
  destruct c; cbn [doCall] in H.
  - inversion H; subst. clear H. cbn [snd].
    unfold reserveAllocationSpace, callSPSWrapper.
    destruct (negb (empty (ErrMsg m))); [exact Hnil |].
    destruct (negb (isPowerOf2_32 CodeAlign) || (CodeAlign >? getPageSize EPC));
      [exact Hnil |].
    destruct (negb (isPowerOf2_32 RODataAlign)
              || (RODataAlign >? getPageSize EPC)); [exact Hnil |].
    destruct (negb (isPowerOf2_32 RWDataAlign)
              || (RWDataAlign >? getPageSize EPC)); [exact Hnil |].
    eexists [_]. split.
    + destruct (respond EPC (List.length log)); reflexivity.
    + constructor; [| constructor]. left. eexists. reflexivity.
  - destruct (allocateCodeSection m Buf Sz Alignment) as [[p m2] |];
      [| discriminate].
    inversion H; subst. exact Hnil.
  - destruct (allocateDataSection m Buf Sz Alignment IsReadOnly)
      as [[p m2] |]; [| discriminate].
    inversion H; subst. exact Hnil.
  - inversion H; subst. exact Hnil.
  - inversion H; subst. exact Hnil.
  - inversion H; subst. exact Hnil.
  - inversion H; subst. clear H. cbn [snd].
    unfold finalizeMemory.
    destruct (nonNull Out && negb (empty (ErrMsg m))); [exact Hnil |].
    rewrite finalizeLoop_log.
    eexists. split; [reflexivity |].
    induction (processedGroups EPC (List.length log) (Unfinalized m))
      as [| g gs IH]; constructor; [| exact IH].
    right. exists g. reflexivity.
Qed.

(** Whatever the loader calls and in whatever order, the log of remote
    calls only grows, and every call added is a reserve call or the
    finalize call of a group, both carrying the instance handle: no member
    function calls the deallocate entry point or, directly, the frame
    registration entry points. *)
Theorem calls_only_reserve_and_finalize (cs : list MemberCall) :
  forall st st',
  doCalls EPC SAs st cs = Some st' ->
  exists calls,
    snd st' = snd st ++ calls /\ Forall (isManagerCall SAs) calls.
Proof.
  induction cs as [| c rest IH]; intros st st' H.
  - simpl in H. inversion H; subst. exists [].
    rewrite app_nil_r. split; [reflexivity | constructor].
  - cbn [doCalls] in H.
    destruct (doCall EPC SAs st c) as [st1 |] eqn:E; [| discriminate].
    destruct (doCall_log _ _ _ E) as (c1 & L1 & F1).
    destruct (IH _ _ H) as (c2 & L2 & F2).
    exists (c1 ++ c2). split.
    + rewrite L2, L1, app_assoc. reflexivity.
    + apply Forall_app. split; assumption.
Qed.

End CallSequences.

Lemma sticky_error_persists_witness :
  let m := mkManager [overAlignedGroup] [exampleGroup1] []
             "reserve failed"%string in
  let cs := [DoReserve 10 1 0 1 0 1; DoAllocateCode 5000 8 8;
             DoRegisterEHFrames 4100 24; DoNotifyObjectLoaded] in
  exists m', doCalls exampleEPC exampleSAs (m, []) cs = Some (m', []) /\
             ErrMsg m' = "reserve failed"%string.
Proof.
  intros m cs.
  destruct (doCalls exampleEPC exampleSAs (m, []) cs) as [[m' log'] |] eqn:E.
  - destruct (sticky_error_persists exampleEPC exampleSAs cs m [] m' log')
      as (H1 & H2 & _); [reflexivity | reflexivity | exact E |].
    exists m'. subst log'. split; [reflexivity | exact H1].
  - vm_compute in E. discriminate E.
Defined.

Lemma calls_never_record_finalized_witness :
  let cs := [DoReserve 10 1 0 1 0 1; DoAllocateCode 1000 10 1;
             DoNotifyObjectLoaded; DoFinalizeMemory (Some EmptyString)] in
  exists st', doCalls exampleEPC exampleSAs (newManager, []) cs = Some st' /\
              Unfinalized (fst st') = [] /\
              FinalizedAllocs (fst st') = [].
Proof.
  intros cs.
  destruct (doCalls exampleEPC exampleSAs (newManager, []) cs)
    as [st' |] eqn:E.
  - exists st'. split; [reflexivity |].
    pose proof (calls_never_record_finalized exampleEPC exampleSAs cs
                  _ _ E) as H.
    split; [| exact H].
    vm_compute in E. inversion E. reflexivity.
  - vm_compute in E. discriminate E.
Defined.

Lemma calls_only_reserve_and_finalize_witness :
  let cs := [DoReserve 10 1 0 1 0 1; DoAllocateCode 1000 10 1;
             DoNotifyObjectLoaded; DoFinalizeMemory (Some EmptyString)] in
  exists st' calls,
    doCalls exampleEPC exampleSAs (newManager, []) cs = Some st' /\
    snd st' = calls /\ List.length calls = 2%nat /\
    Forall (isManagerCall exampleSAs) calls.
Proof.
  intros cs.
  destruct (doCalls exampleEPC exampleSAs (newManager, []) cs)
    as [st' |] eqn:E.
  - destruct (calls_only_reserve_and_finalize exampleEPC exampleSAs cs
                _ _ E) as (calls & HL & HF).
    exists st', calls. cbn [snd app] in HL.
    split; [reflexivity |]. split; [exact HL |]. split; [| exact HF].
    rewrite <- HL. vm_compute in E. inversion E. reflexivity.
  - vm_compute in E. discriminate E.
Defined.
